(** * Weight-of-Evidence encoder: a shallow embedding and its properties

    The development follows [src/WeightofEvidenceEncoder/WeightofEvidenceEncoder.py].
    pandas Series indexed by category and Python dicts are finite maps
    ([gmap]); a DataFrame is a finite map from column names to columns;
    exceptions are the left summand of a sum type.

    Numbers.  A float64 is [NaN], an infinity or a finite value, and finite
    values are exact reals: the operations of [Float] do not round, there
    is no overflow and a single zero.  [ln] is the real logarithm behind
    [np.log].  Where a statement is about the distance between a float64
    result and the exact one, the rounding of each operation is written
    out (section Rounding). *)

From Stdlib Require Import Reals Lra ZArith.
From stdpp Require Import gmap strings list fin_maps.

Local Open Scope R_scope.

(* ===================================================================== *)
(** ** Floating-point values                                              *)
(* ===================================================================== *)

Module Float.

Inductive fl : Type :=
  | NaN
  | PInf
  | NInf
  | Fin (r : R).

Definition is_nan (a : fl) : bool :=
  match a with NaN => true | _ => false end.

Definition Rltb (a b : R) : bool := if Rlt_dec a b then true else false.
Definition Rleb (a b : R) : bool := if Rle_dec a b then true else false.

(** The infinity whose sign is that of [r]; [NaN] at zero. *)
Definition inf_of_sign (r : R) : fl :=
  if Rlt_dec 0 r then PInf else if Rlt_dec r 0 then NInf else NaN.

Definition fneg (a : fl) : fl :=
  match a with
  | NaN => NaN
  | PInf => NInf
  | NInf => PInf
  | Fin r => Fin (- r)
  end.

(** The exact sum of finite values; the rounding of a float64 addition is
    applied by [round] where a statement depends on it. *)
Definition fadd (a b : fl) : fl :=
  match a, b with
  | NaN, _ | _, NaN => NaN
  | PInf, NInf | NInf, PInf => NaN
  | PInf, _ | _, PInf => PInf
  | NInf, _ | _, NInf => NInf
  | Fin x, Fin y => Fin (x + y)
  end.

Definition fsub (a b : fl) : fl := fadd a (fneg b).

Definition fmul (a b : fl) : fl :=
  match a, b with
  | NaN, _ | _, NaN => NaN
  | Fin x, Fin y => Fin (x * y)
  | PInf, PInf | NInf, NInf => PInf
  | PInf, NInf | NInf, PInf => NInf
  | Fin x, PInf | PInf, Fin x => inf_of_sign x
  | Fin x, NInf | NInf, Fin x => inf_of_sign (- x)
  end.

(** The exact quotient of finite values; the rounding of a float64
    division is applied by [round] where a statement depends on it. *)
Definition fdiv (a b : fl) : fl :=
  match a, b with
  | NaN, _ | _, NaN => NaN
  | Fin x, Fin y => if Req_dec_T y 0 then inf_of_sign x else Fin (x / y)
  | Fin _, (PInf | NInf) => Fin 0
  | PInf, Fin y => if Rlt_dec y 0 then NInf else PInf
  | NInf, Fin y => if Rlt_dec y 0 then PInf else NInf
  | (PInf | NInf), (PInf | NInf) => NaN
  end.

(** [np.log] *)
Definition flog (a : fl) : fl :=
  match a with
  | NaN | NInf => NaN
  | PInf => PInf
  | Fin x => if Rlt_dec 0 x then Fin (ln x)
             else if Rlt_dec x 0 then NaN else NInf
  end.

(** [a <= b] and [a < b]; every comparison with [NaN] is false. *)
Definition fle (a b : fl) : bool :=
  match a, b with
  | NaN, _ | _, NaN => false
  | NInf, _ | _, PInf => true
  | PInf, _ | _, NInf => false
  | Fin x, Fin y => Rleb x y
  end.

Definition flt (a b : fl) : bool :=
  match a, b with
  | NaN, _ | _, NaN => false
  | PInf, _ | _, NInf => false
  | NInf, _ | _, PInf => true
  | Fin x, Fin y => Rltb x y
  end.

(** [Series.fillna(v)] on one cell. *)
Definition fillna_cell (v a : fl) : fl :=
  if is_nan a then v else a.

End Float.
Export Float.

(* ===================================================================== *)
(** ** Predictive-power description                                       *)
(* ===================================================================== *)

(** The [predictive_power] dict of [__add_description], in insertion order. *)
Definition predictive_power : list ((fl * fl) * string) :=
  [ ((Fin 0, Fin 0.02), "Not useful for prediction"%string);
    ((Fin 0.02, Fin 0.1), "Weak predictive power"%string);
    ((Fin 0.1, Fin 0.3), "Medium predictive power"%string);
    ((Fin 0.3, Fin 0.5), "Strong predictive power"%string);
    ((Fin 0.5, PInf), "Too good to be true!"%string) ].

(** [bounds[0] <= information_value < bounds[1]] *)
Definition in_band (information_value : fl) (bounds : fl * fl) : bool :=
  fle (fst bounds) information_value && flt information_value (snd bounds).

(** The [for bounds, desc in predictive_power.items()] loop with its
    early [return], and the [return] after the loop. *)
Fixpoint first_band (information_value : fl) (items : list ((fl * fl) * string))
  : option string :=
  match items with
  | [] => None
  | (bounds, desc) :: rest =>
      if in_band information_value bounds then Some desc
      else first_band information_value rest
  end.

Definition add_description (information_value : fl) : string :=
  match first_band information_value predictive_power with
  | Some desc => desc
  | None => "Too good to be true!"%string
  end.

(* ===================================================================== *)
(** ** Exceptions                                                         *)
(* ===================================================================== *)

Inductive pykey : Type :=
  | KInt (z : Z)
  | KStr (s : string).

Inductive exn : Type :=
  | AssertionError (msg : string)
  | KeyError (key : pykey)
  | ValueError.

(** A computation returns a value or raises: [raise e] is [inl e], a
    normal [return a] is [inr a], and [let! x := m in k] runs [k] on the
    value of [m] unless [m] raised. *)
Definition bind_exn {A B} (m : exn + A) (k : A → exn + B) : exn + B :=
  match m with
  | inl e => inl e
  | inr a => k a
  end.

Notation "'let!' x ':=' m 'in' k" := (bind_exn m (λ x, k))
  (at level 10, x name, m at level 100, k at level 200,
   format "'[v' 'let!'  x  ':='  m  'in' '/' k ']'").

(** [container[key]]: the entry, or [KeyError(key)]. *)
Definition getitem {A} (key : pykey) (entry : option A) : exn + A :=
  match entry with
  | Some a => inr a
  | None => inl (KeyError key)
  end.

(* ===================================================================== *)
(** ** Tables                                                             *)
(* ===================================================================== *)

(** Category values are strings; a missing cell (NaN or None) is [None]. *)
Abbreviation category := string (only parsing).

(** A column of a table handed to [transofrm]: the categorical columns of
    the caller, and the float columns the encoder writes. *)
Inductive column : Type :=
  | CatCol (cells : list (option category))
  | NumCol (cells : list fl).

(** The training table of [fit] holds categorical columns. *)
Abbreviation cat_frame := (gmap string (list (option category))) (only parsing).
Abbreviation frame := (gmap string column) (only parsing).

(* ===================================================================== *)
(** ** __calc_perc                                                        *)
(* ===================================================================== *)

(** [Series.value_counts()] as a map from value to number of occurrences
    (the order of the result is not kept: nothing below depends on it). *)
Definition value_counts `{Countable K} (l : list K) : gmap K nat :=
  foldr (λ k m, <[k := S (default 0%nat (m !! k))]> m) ∅ l.

(** The [feat] cells of the rows of [X_temp] in group [target], without
    the missing ones ([value_counts] has [dropna=True]). *)
Definition group_feat (target : Z) (x : list (option category)) (y : list Z)
  : list category :=
  omap (λ row : option category * Z,
          if decide (row.2 = target) then row.1 else None) (zip x y).

(** [X_temp.groupby("target")["feat"].value_counts()[target]]: the counts
    of the group, or [KeyError] when the result has no entry under
    [target]. *)
Definition grouped_value_counts (target : Z) (x : list (option category))
    (y : list Z) : exn + gmap category nat :=
  let counts := value_counts (group_feat target x y) in
  if decide (counts = ∅) then inl (KeyError (KInt target)) else inr counts.

(** [counts / n]: integer counts divided by an integer scalar. *)
Definition div_scalar (counts : gmap category nat) (n : nat) : gmap category fl :=
  (λ c, fdiv (Fin (INR c)) (Fin (INR n))) <$> counts.

Definition calc_perc (x : list (option category)) (y : list Z)
  : exn + (gmap category fl * gmap category fl) :=
  if decide (length x = length y) then
    let n_event := value_counts y in
    let! c1 := grouped_value_counts 1 x y in
    let! n1 := getitem (KInt 1) (n_event !! 1%Z) in
    let p_event := div_scalar c1 n1 in
    let! c0 := grouped_value_counts 0 x y in
    let! n0 := getitem (KInt 0) (n_event !! 0%Z) in
    let p_non_event := div_scalar c0 n0 in
    inr (p_event, p_non_event)
  else inl ValueError.

(* ===================================================================== *)
(** ** fit                                                                *)
(* ===================================================================== *)

(** A binary operator on two Series: the indexes are aligned on their
    union and a label missing on one side contributes [NaN]. *)
Definition align_with (op : fl → fl → fl) (a b : gmap category fl)
  : gmap category fl :=
  merge (λ u v, match u, v with
                | None, None => None
                | _, _ => Some (op (default NaN u) (default NaN v))
                end) a b.

(** [Series.fillna(v)] *)
Definition series_fillna (v : fl) (s : gmap category fl) : gmap category fl :=
  fillna_cell v <$> s.

Record encoder : Type := Encoder {
  feats : list string;
  drop_original : bool;
  fillna : option fl;
  prefix : string;
  suffix : string;
  transform_dict_woe : gmap string (gmap category fl);
  transform_dict_iv : gmap string (gmap category fl);
  is_fitted : bool
}.

(** [__init__] *)
Definition init (feats : list string) (drop_original : bool)
    (fillna : option fl) (prefix suffix : string) : encoder :=
  Encoder feats drop_original fillna prefix suffix ∅ ∅ false.

(** The body of the [for feat in self.feats] loop of [fit] after
    [__calc_perc]: the WoE table and the IV contributions of one feature. *)
Definition fit_feature (fillna : option fl) (p_event p_non_event : gmap category fl)
  : gmap category fl * gmap category fl :=
  let woe := flog <$> align_with fdiv p_non_event p_event in
  let woe := series_fillna (Fin 0) woe in
  let information_value :=
    align_with fmul (align_with fsub p_non_event p_event) woe in
  let information_value :=
    match fillna with
    | Some v => series_fillna v information_value
    | None => information_value
    end in
  (woe, information_value).

Definition store (self : encoder) (feat : string)
    (woe information_value : gmap category fl) : encoder :=
  Encoder (feats self) (drop_original self) (fillna self) (prefix self)
    (suffix self)
    (<[feat := woe]> (transform_dict_woe self))
    (<[feat := information_value]> (transform_dict_iv self))
    (is_fitted self).

Definition set_fitted (self : encoder) : encoder :=
  Encoder (feats self) (drop_original self) (fillna self) (prefix self)
    (suffix self) (transform_dict_woe self) (transform_dict_iv self) true.

(** The loop of [fit].  An exception leaves the encoder as the iterations
    before it have mutated it, so the state is returned next to it. *)
Fixpoint fit_loop (fs : list string) (X : cat_frame) (y : list Z)
    (self : encoder) : encoder * option exn :=
  match fs with
  | [] => (self, None)
  | feat :: rest =>
      match let! x := getitem (KStr feat) (X !! feat) in calc_perc x y with
      | inl e => (self, Some e)
      | inr (p_event, p_non_event) =>
          let '(woe, information_value) :=
            fit_feature (fillna self) p_event p_non_event in
          fit_loop rest X y (store self feat woe information_value)
      end
  end.

Definition fit (self : encoder) (X : cat_frame) (y : list Z)
  : encoder * option exn :=
  match fit_loop (feats self) X y self with
  | (self', None) => (set_fitted self', None)
  | (self', Some e) => (self', Some e)
  end.

(* ===================================================================== *)
(** ** transofrm                                                          *)
(* ===================================================================== *)

(** [Series.map(d, na_action=...)] with a dict [d].  Each cell is looked up
    in [d]; a cell without entry gives [NaN].  A float column has no
    entry for any cell, the keys of [d] being categories.  How pandas
    treats an [na_action] other than [None] depends on its version: older
    releases never read it on the dict path, later ones raise
    [ValueError]; [checked] selects the later behaviour. *)
Definition series_map (checked : bool) (d : gmap category fl)
    (na_action : option fl) (col : column) : exn + list fl :=
  if checked && bool_decide (is_Some na_action) then
    inl ValueError
  else
    inr match col with
        | CatCol cells => (λ c, default NaN (c ≫= (d !!.))) <$> cells
        | NumCol cells => (λ _, NaN) <$> cells
        end.

(** [self.prefix + feat + self.suffix] *)
Definition new_col_name (self : encoder) (feat : string) : string :=
  (prefix self +:+ feat) +:+ suffix self.

(** The two statements that end an iteration of [transofrm]: the new
    column is assigned, and the original one dropped when asked for and
    the naming delta is not empty. *)
Definition write_column (self : encoder) (feat : string) (new_col : list fl)
    (X : frame) : frame :=
  let X := <[new_col_name self feat := NumCol new_col]> X in
  if drop_original self
     && negb (bool_decide (prefix self +:+ suffix self = ""%string))
  then delete feat X else X.

Fixpoint transform_loop (checked : bool) (self : encoder) (fs : list string)
    (X : frame) : exn + frame :=
  match fs with
  | [] => inr X
  | feat :: rest =>
      let! col := getitem (KStr feat) (X !! feat) in
      let! d := getitem (KStr feat) (transform_dict_woe self !! feat) in
      let! new_col := series_map checked d (fillna self) col in
      transform_loop checked self rest (write_column self feat new_col X)
  end.

Definition transofrm (checked : bool) (self : encoder) (X : frame)
  : exn + frame :=
  if is_fitted self then transform_loop checked self (feats self) X
  else inl (AssertionError "Fot the encoder first").

(* ===================================================================== *)
(** ** information_values                                                 *)
(* ===================================================================== *)

(** [Series.sum()]: [skipna=True], so [NaN] cells are left out, and the
    sum of no cell is 0. *)
Definition series_sum (s : gmap category fl) : fl :=
  map_fold (λ _ v acc, if is_nan v then acc else fadd v acc) (Fin 0) s.

Record iv_row : Type := IvRow {
  row_feat : string;
  row_information_value : fl;
  row_description : option string
}.

Fixpoint iv_loop (self : encoder) (fs : list string) : exn + list (string * fl) :=
  match fs with
  | [] => inr []
  | feat :: rest =>
      let! s := getitem (KStr feat) (transform_dict_iv self !! feat) in
      let! others := iv_loop self rest in
      inr ((feat, series_sum s) :: others)
  end.

Definition information_values (self : encoder) (add_desc : bool)
  : exn + list iv_row :=
  if is_fitted self then
    let! X_iv := iv_loop self (feats self) in
    inr ((λ r : string * fl,
            IvRow r.1 r.2
              (if add_desc then Some (add_description r.2) else None))
           <$> X_iv)
  else inl (AssertionError "Fot the encoder first").

(* ===================================================================== *)
(** ** Vocabulary of the statements                                       *)
(* ===================================================================== *)

(** Number of occurrences of [k] in [l]. *)
Definition occurrences `{EqDecision K} (k : K) (l : list K) : nat :=
  length (filter (λ k', k' = k) l).

(** Sum of the counts of a map. *)
Definition total `{Countable K} (m : gmap K nat) : nat :=
  map_fold (λ _ c acc, (c + acc)%nat) 0%nat m.

(** The WoE and the IV contribution that [fit_feature] gives a category
    whose proportion is [u] among non-events and [v] among events, [NaN]
    standing for a side on which the category is absent. *)
Definition woe_cell (u v : fl) : fl := fillna_cell (Fin 0) (flog (fdiv u v)).

Definition iv_cell (fillna : option fl) (u v : fl) : fl :=
  let c := fmul (fsub u v) (woe_cell u v) in
  match fillna with Some f => fillna_cell f c | None => c end.

(** A category seen in exactly one of the two classes. *)
Definition one_sided (p_event p_non_event : gmap category fl) (c : category)
  : Prop :=
  (is_Some (p_event !! c) ∧ p_non_event !! c = None)
  ∨ (p_event !! c = None ∧ is_Some (p_non_event !! c)).





(* ===================================================================== *)
(** ** Sample tables                                                      *)
(* ===================================================================== *)

Module Sample.
Local Open Scope string_scope.
Local Open Scope Z_scope.

(** Five rows: city A, A, A, B, B with targets 1, 1, 0, 0, 0. *)
Definition x_city : list (option category) :=
  [Some "A"; Some "A"; Some "A"; Some "B"; Some "B"].
Definition X_city : cat_frame := {[ "city" := x_city ]}.
Definition y_city : list Z := [1; 1; 0; 0; 0].

Definition p_event_city : gmap category fl :=
  div_scalar (value_counts ["A"; "A"]) 2.
Definition p_non_event_city : gmap category fl :=
  div_scalar (value_counts ["A"; "B"; "B"]) 3.

(** Encoders before and after [fit] on that table. *)
Definition enc_city : encoder := init ["city"] false None "woe_" "".
Definition fitted_city : encoder := (fit enc_city X_city y_city).1.

(** With a fill value. *)
Definition enc_fill : encoder := init ["city"] false (Some (Fin 0)) "woe_" "".
Definition fitted_fill : encoder := (fit enc_fill X_city y_city).1.


(** The training table as a table to encode. *)
Definition X_city_frame : frame := {[ "city" := CatCol x_city ]}.

(** A table to encode: a known city, an unknown one, a missing cell; and
    what the encoder fitted with a fill value makes of it. *)
Definition X_new : frame := {[ "city" := CatCol [Some "A"; Some "C"; None] ]}.

(** An event row without city. *)
Definition x_gap : list (option category) := [None; Some "A"; Some "B"].
Definition y_gap : list Z := [1; 1; 0].
Definition p_event_gap : gmap category fl := div_scalar (value_counts ["A"]) 2.
Definition p_non_event_gap : gmap category fl :=
  div_scalar (value_counts ["B"]) 1.

(** An encoder without feature, and a table whose target has no event. *)
Definition enc_none : encoder := init [] false None "woe_" "".
Definition X_two : cat_frame := {[ "city" := [Some "A"; Some "B"] ]}.
Definition y_zeros : list Z := [0; 0].
End Sample.

(* ===================================================================== *)
(** ** Vocabulary of further statements                                   *)
(* ===================================================================== *)

(** Some row has the label [target] and a category. *)
Definition has_row (target : Z) (x : list (option category)) (y : list Z)
  : Prop :=
  ∃ i k, x !! i = Some (Some k) ∧ y !! i = Some target.


(** Whether an iteration of [transofrm] drops the original column: the
    condition of [write_column]. *)
Definition dropping (self : encoder) : bool :=
  drop_original self
  && negb (bool_decide (prefix self +:+ suffix self = ""%string)).

(** The cells [Series.map] makes of a column with the table [d]: the
    result of [series_map] when it returns. *)
Definition encode_column (d : gmap category fl) (col : column) : list fl :=
  match col with
  | CatCol cells => (λ c, default NaN (c ≫= (d !!.))) <$> cells
  | NumCol cells => (λ _, NaN) <$> cells
  end.

(** No new column has the name of a configured feature. *)
Definition no_collision (self : encoder) : Prop :=
  ∀ f f', f ∈ feats self → f' ∈ feats self → new_col_name self f ≠ f'.

(** A training table as a table to encode. *)
Definition as_frame (X : cat_frame) : frame := CatCol <$> X.

(** The sample encoder with [drop_original] and the default prefix. *)
Module Sample2.
Local Open Scope string_scope.

Definition enc_dropping : encoder := init ["city"] true None "woe_" "".
Definition fitted_dropping : encoder :=
  (fit enc_dropping Sample.X_city Sample.y_city).1.
Definition cells_city : list fl :=
  encode_column (fit_feature None Sample.p_event_city Sample.p_non_event_city).1
    (CatCol Sample.x_city).
Definition X_city_encoded : frame :=
  <[ "woe_city" := NumCol cells_city ]> Sample.X_city_frame.
End Sample2.

(* ===================================================================== *)
(** ** Sums over all cells, columns rewritten in place                    *)
(* ===================================================================== *)

(** The sum of all the cells of a Series with the addition of floats, in
    which a single [NaN] cell makes the sum [NaN]: the sum "over all
    categories", with which [series_sum] is compared. *)
Definition sum_of_all_cells (s : gmap category fl) : fl :=
  map_fold (λ _ v acc, fadd v acc) (Fin 0) s.



(* ===================================================================== *)
(** ** Rounding                                                           *)
(* ===================================================================== *)

(** The arithmetic of [Float] is exact.  Where a statement is about how
    far a float64 result is from the exact one, the rounding of an
    operation is made explicit: [rnd] maps the exact result to the float64
    that the operation returns. *)
Definition round (rnd : R → R) (a : fl) : fl :=
  match a with
  | Fin r => Fin (rnd r)
  | _ => a
  end.

(** What is assumed of a rounding: between [lo] and [hi] the relative
    error is at most the unit roundoff [u]; rounding is monotone, leaves
    a rounded value as it is, and 1 is a float.  Round-to-nearest of
    binary64 is such a rounding with [u] = 2^-53, [lo] the least positive
    normal number 2^-1022 and [hi] the largest finite number. *)
Record rounding (rnd : R → R) (u lo hi : R) : Prop := Rounding {
  roundoff_bound : 0 <= u <= 1 / 2;
  range_bound : 0 < lo <= 1 ∧ 1 <= hi;
  round_error r : lo <= r <= hi → Rabs (rnd r - r) <= u * r;
  round_mono r s : r <= s → rnd r <= rnd s;
  round_idem r : rnd (rnd r) = rnd r;
  round_one : rnd 1 = 1
}.

(** [__calc_perc] in float64.  The counts and the class sizes are integers
    that a float holds exactly (they are below 2^53), and each division
    returns the rounded quotient. *)
Definition calc_perc_float (rnd : R → R) (x : list (option category))
    (y : list Z) : exn + (gmap category fl * gmap category fl) :=
  let! p := calc_perc x y in
  inr (round rnd <$> p.1, round rnd <$> p.2).

(** A float64 sum of the cells of a list: each addition returns the
    rounded sum of its operands.  The cells are added in the order of the
    list; how the additions are nested is left open (numpy adds in blocks
    and pairs, a plain loop from left to right). *)
Inductive float_sum (rnd : R → R) : list fl → fl → Prop :=
  | float_sum_one a : float_sum rnd [a] a
  | float_sum_add l1 l2 s1 s2 :
      float_sum rnd l1 s1 → float_sum rnd l2 s2 →
      float_sum rnd (l1 ++ l2) (round rnd (fadd s1 s2)).

(** [Series.sum()] in float64: a float sum of the cells that are not
    [NaN], in some order; 0 when there is none. *)
Definition series_sum_float (rnd : R → R) (s : gmap category fl) (total : fl)
  : Prop :=
  ∃ cells,
    cells ≡ₚ filter (λ v, is_nan v = false) (map_to_list s).*2 ∧
    ((cells = [] ∧ total = Fin 0) ∨ float_sum rnd cells total).

(** The float64 proportion of a count [c] in a class of [n] rows. *)
Definition rounded_proportion (rnd : R → R) (n c : nat) : fl :=
  Fin (rnd (INR c / INR n)).

(** A coarse rounding for the samples: the values from 0.3 to 0.34 are
    rounded down to 0.3, every other value is a float. *)
Module SampleRounding.
Definition rnd (r : R) : R :=
  if Rle_dec (3 / 10) r then (if Rle_dec r (17 / 50) then 3 / 10 else r) else r.
End SampleRounding.

(* ===================================================================== *)
(** ** bin_continuous                                                     *)
(* ===================================================================== *)

Module BinContinuous.

(** What [bin_continuous] uses of sklearn's [KBinsDiscretizer]: the
    constructor without argument, [set_params] as called with the
    unpacked [params] dict, and [fit].  Both
    methods work on the estimator in place, so they give the estimator as
    they leave it, and the exception if they raise one. *)
Record sklearn : Type := Sklearn {
  estimator : Type;
  params : Type;
  sk_error : Type;
  KBinsDiscretizer : estimator;
  set_params : params → estimator → estimator * option sk_error;
  est_fit : estimator → column → estimator * option sk_error
}.

(** Exceptions of [fit]: Python's own, or one raised inside sklearn. *)
Inductive error (sk : sklearn) : Type :=
  | TypeError
  | KeyError (key : string)
  | Raised (e : sk_error sk).
Arguments TypeError {sk}.
Arguments KeyError {sk} key.
Arguments Raised {sk} e.

Record binner (sk : sklearn) : Type := Binner {
  cols : list string;
  drop_original : bool;
  suffix : option string;
  bin_params : option (params sk);
  transformers : gmap string (estimator sk)
}.
Arguments Binner {sk}.
Arguments cols {sk}.
Arguments drop_original {sk}.
Arguments suffix {sk}.
Arguments bin_params {sk}.
Arguments transformers {sk}.

(** [__init__] *)
Definition init {sk} (cols : list string) (drop_original : bool)
    (suffix : option string) (bin_params : option (params sk)) : binner sk :=
  Binner cols drop_original suffix bin_params ∅.

(** [self.transformers[col] = est] *)
Definition set_transformer {sk} (self : binner sk) (col : string)
    (est : estimator sk) : binner sk :=
  Binner (cols self) (drop_original self) (suffix self) (bin_params self)
    (<[col := est]> (transformers self)).

(** The loop of [__initialize].  The call of [est.set_params] unpacks
    [self.params] with the double star; that raises [TypeError] when
    [self.params] is [None], the double star needing a mapping. *)
Fixpoint initialize_loop {sk} (cs : list string) (self : binner sk)
  : binner sk * option (error sk) :=
  match cs with
  | [] => (self, None)
  | col :: rest =>
      let est := KBinsDiscretizer sk in
      match bin_params self with
      | None => (self, Some TypeError)
      | Some p =>
          match set_params sk p est with
          | (_, Some e) => (self, Some (Raised e))
          | (est, None) => initialize_loop rest (set_transformer self col est)
          end
      end
  end.

Definition initialize {sk} (self : binner sk) : binner sk * option (error sk) :=
  initialize_loop (cols self) self.

(** The loop of [fit]: [self.transformers[col].fit(X[col]...)]. *)
Fixpoint fit_loop {sk} (cs : list string) (X : frame) (self : binner sk)
  : binner sk * option (error sk) :=
  match cs with
  | [] => (self, None)
  | col :: rest =>
      match transformers self !! col with
      | None => (self, Some (KeyError col))
      | Some est =>
          match X !! col with
          | None => (self, Some (KeyError col))
          | Some c =>
              match est_fit sk est c with
              | (est, Some e) => (set_transformer self col est, Some (Raised e))
              | (est, None) => fit_loop rest X (set_transformer self col est)
              end
          end
      end
  end.

Definition fit {sk} (self : binner sk) (X : frame)
  : binner sk * option (error sk) :=
  match initialize self with
  | (self, Some e) => (self, Some e)
  | (self, None) => fit_loop (cols self) X self
  end.

End BinContinuous.

Module BinSample.
Import BinContinuous.

(** A stand-in for sklearn: an estimator is the list of the columns it
    was fitted on, parameters carry nothing, nothing raises. *)
Definition toy : sklearn :=
  Sklearn (list column) unit Empty_set []
    (λ _ est, (est, None)) (λ est c, (c :: est, None)).

Definition binner_default : binner toy :=
  init (sk := toy) ["age"%string] false None None.
Definition binner_set : binner toy :=
  init (sk := toy) ["age"%string] false None (Some tt).
Definition X_age : frame := {[ "age"%string := NumCol [Fin 1; Fin 2] ]}.
Definition binner_fitted : binner toy := (fit binner_set X_age).1.
End BinSample.



(* ===================================================================== *)
(** ** Featurizer: the label encoders                                     *)
(* ===================================================================== *)

Module Featurizer.

(** [Series.unique()]: the distinct values in order of first appearance;
    a missing cell counts as a value. *)
Fixpoint unique_from `{EqDecision K} (seen : list K) (l : list K) : list K :=
  match l with
  | [] => []
  | v :: l =>
      if decide (v ∈ seen) then unique_from seen l
      else v :: unique_from (v :: seen) l
  end.

Definition unique `{EqDecision K} (l : list K) : list K := unique_from [] l.

(** [for i, value in enumerate(values): d[value] = i] *)
Definition enumerate_dict `{Countable K} (values : list K) : gmap K nat :=
  foldl (λ d p, <[p.2 := p.1]> d) ∅ (imap (λ i v, (i, v)) values).

Inductive error : Type :=
  | TypeError
  | KeyError (key : string).

(** The attributes the label encoders use.  A fitted [label_encoder]
    closure holds nothing but [self], so [label_encoders] is the set of
    the column names that have one; it is [None] until the encoders are
    fitted. *)
Record featurizer : Type := Featurizer {
  label_encoder_columns : list string;
  label_encoders : option (gset string);
  label_encoding_dict : gmap string (gmap (option category) nat)
}.

(** [__fit_label_encoder] on the Series named [col_name]; the closure it
    returns is stored by the caller. *)
Definition fit_label_encoder (self : featurizer) (col_name : string)
    (series : list (option category)) : featurizer :=
  Featurizer (label_encoder_columns self) (label_encoders self)
    (<[col_name := enumerate_dict (unique series)]> (label_encoding_dict self)).

(** [self.label_encoders[col] = ...] *)
Definition add_label_encoder (self : featurizer) (col : string) : featurizer :=
  Featurizer (label_encoder_columns self)
    (Some ({[col]} ∪ default ∅ (label_encoders self)))
    (label_encoding_dict self).

Fixpoint fit_label_encoders_loop (cs : list string) (X : cat_frame)
    (self : featurizer) : featurizer * option error :=
  match cs with
  | [] => (self, None)
  | col :: rest =>
      match X !! col with
      | None => (self, Some (KeyError col))
      | Some series =>
          fit_label_encoders_loop rest X
            (add_label_encoder (fit_label_encoder self col series) col)
      end
  end.

(** [__fit_label_encoders]: [self.label_encoders = {}], then the loop. *)
Definition fit_label_encoders (self : featurizer) (X : cat_frame)
  : featurizer * option error :=
  fit_label_encoders_loop (label_encoder_columns self) X
    (Featurizer (label_encoder_columns self) (Some ∅) (label_encoding_dict self)).

(** The code, as a float, that the closure gives a cell:
    [series.map(d)], then [fillna(-1)].  A missing cell is looked up like
    any value: it finds the code of the missing value when the training
    column had one. *)
Definition label_code (d : gmap (option category) nat) (cell : option category)
  : fl :=
  match d !! cell with
  | Some i => Fin (INR i)
  | None => Fin (-1)
  end.

(** The closure [label_encoder] on a column.  No cell of a float column is
    a key of the dict, the keys being categories. *)
Definition label_encoder (d : gmap (option category) nat) (col : column)
  : list fl :=
  match col with
  | CatCol cells => label_code d <$> cells
  | NumCol cells => (λ _, Fin (-1)) <$> cells
  end.

(** [__transform_label_encoder] on the Series named [name]:
    [self.label_encoders[series.name](series)]. *)
Definition transform_label_encoder (self : featurizer) (name : string)
    (col : column) : error + list fl :=
  match label_encoders self with
  | None => inl TypeError
  | Some encoders =>
      if decide (name ∈ encoders) then
        match label_encoding_dict self !! name with
        | Some d => inr (label_encoder d col)
        | None => inl (KeyError name)
        end
      else inl (KeyError name)
  end.

(** [__transform_label_encoders] *)
Fixpoint transform_label_encoders_loop (self : featurizer) (cs : list string)
    (X : frame) : error + frame :=
  match cs with
  | [] => inr X
  | col :: rest =>
      match X !! col with
      | None => inl (KeyError col)
      | Some series =>
          match transform_label_encoder self col series with
          | inl e => inl e
          | inr codes =>
              transform_label_encoders_loop self rest (<[col := NumCol codes]> X)
          end
      end
  end.

Definition transform_label_encoders (self : featurizer) (X : frame)
  : error + frame :=
  transform_label_encoders_loop self (label_encoder_columns self) X.

End Featurizer.

(** A featurizer whose label encoders for [cs] are fitted. *)
Definition encoders_fitted (self : Featurizer.featurizer) (cs : list string) : Prop :=
  ∃ encoders, Featurizer.label_encoders self = Some encoders ∧
    ∀ col, col ∈ cs → col ∈ encoders ∧ is_Some (Featurizer.label_encoding_dict self !! col).

Module LabelSample.
Import Featurizer.
Local Open Scope string_scope.

Definition featurizer_city : featurizer := Featurizer ["city"] None ∅.
Definition fitted_featurizer : featurizer :=
  (fit_label_encoders featurizer_city Sample.X_city).1.
End LabelSample.

(* ===================================================================== *)
(** * Properties                                                          *)
(* ===================================================================== *)

(** ** Comparisons and arithmetic of floats *)

Section float_facts.
Implicit Types (a b c : fl) (r s : R).

Lemma Rleb_true r s : r <= s → Rleb r s = true.
Proof. unfold Rleb. destruct (Rle_dec r s); [done | lra]. Qed.

Lemma Rleb_false r s : s < r → Rleb r s = false.
Proof. unfold Rleb. destruct (Rle_dec r s); [lra | done]. Qed.

Lemma Rltb_true r s : r < s → Rltb r s = true.
Proof. unfold Rltb. destruct (Rlt_dec r s); [done | lra]. Qed.

Lemma Rltb_false r s : s <= r → Rltb r s = false.
Proof. unfold Rltb. destruct (Rlt_dec r s); [lra | done]. Qed.

Lemma fadd_comm a b : fadd a b = fadd b a.
Proof. destruct a, b; simpl; try done. f_equal; lra. Qed.

Lemma fadd_assoc a b c : fadd a (fadd b c) = fadd (fadd a b) c.
Proof. destruct a, b, c; simpl; try done. f_equal; lra. Qed.

Lemma fadd_swap a b c : fadd a (fadd b c) = fadd b (fadd a c).
Proof. by rewrite !fadd_assoc, (fadd_comm a b). Qed.

Lemma fdiv_fin_pos r s : 0 < s → fdiv (Fin r) (Fin s) = Fin (r / s).
Proof. intros. simpl. destruct (Req_dec_T s 0); [lra | done]. Qed.

Lemma flog_fin_pos r : 0 < r → flog (Fin r) = Fin (ln r).
Proof. intros. simpl. destruct (Rlt_dec 0 r); [done | lra]. Qed.

Lemma fillna_cell_nan a : fillna_cell a NaN = a.
Proof. done. Qed.

Lemma fillna_cell_fin a r : fillna_cell a (Fin r) = Fin r.
Proof. done. Qed.
End float_facts.

(** Decide the real comparisons of a goal whose operands are numerals. *)
Ltac decide_cmp :=
  repeat first
    [ rewrite Rleb_true by lra | rewrite Rleb_false by lra
    | rewrite Rltb_true by lra | rewrite Rltb_false by lra ];
  simpl.

Ltac unfold_bands :=
  unfold add_description, predictive_power, first_band, in_band; simpl.

(** ** The description bands *)

Lemma first_band_none v items :
  Forall (λ item, in_band v item.1 = false) items → first_band v items = None.
Proof.
  induction 1 as [|[bounds desc] rest Hhd _ IH]; simpl in *; [done|].
  by rewrite Hhd.
Qed.

(** C7. The bands are half-open with an inclusive lower bound, tried in
    ascending order: a finite value in [0, 0.02) is "Not useful for
    prediction", in [0.02, 0.1) "Weak predictive power", in [0.1, 0.3)
    "Medium predictive power", in [0.3, 0.5) "Strong predictive power", and
    from 0.5 on "Too good to be true!".  In particular 0.02 is "Weak",
    0.1 is "Medium" and 0.5 is "Too good to be true!". *)
Theorem add_description_bands :
  (∀ r, (0 <= r < 0.02 → add_description (Fin r) = "Not useful for prediction"%string)
      ∧ (0.02 <= r < 0.1 → add_description (Fin r) = "Weak predictive power"%string)
      ∧ (0.1 <= r < 0.3 → add_description (Fin r) = "Medium predictive power"%string)
      ∧ (0.3 <= r < 0.5 → add_description (Fin r) = "Strong predictive power"%string)
      ∧ (0.5 <= r → add_description (Fin r) = "Too good to be true!"%string))
  ∧ add_description (Fin 0.02) = "Weak predictive power"%string
  ∧ add_description (Fin 0.1) = "Medium predictive power"%string
  ∧ add_description (Fin 0.5) = "Too good to be true!"%string.
Proof.
  assert (∀ r,
      (0 <= r < 0.02 → add_description (Fin r) = "Not useful for prediction"%string)
    ∧ (0.02 <= r < 0.1 → add_description (Fin r) = "Weak predictive power"%string)
    ∧ (0.1 <= r < 0.3 → add_description (Fin r) = "Medium predictive power"%string)
    ∧ (0.3 <= r < 0.5 → add_description (Fin r) = "Strong predictive power"%string)
    ∧ (0.5 <= r → add_description (Fin r) = "Too good to be true!"%string)) as Hband.
  { intros r. repeat split; intros Hr; unfold_bands; by decide_cmp. }
  split; [exact Hband|].
  split; [apply Hband; lra|]. split; apply Hband; lra.
Qed.

Lemma add_description_bands_witness :
  add_description (Fin 0.2) = "Medium predictive power"%string.
Proof.
  apply (proj1 (proj2 (proj2 (proj1 add_description_bands 0.2)))). lra.
Defined.

Lemma negative_in_no_band r :
  r < 0 → Forall (λ item, in_band (Fin r) item.1 = false) predictive_power.
Proof.
  intros Hr. unfold predictive_power, in_band.
  repeat constructor; simpl; by decide_cmp.
Qed.

(** C8. A value that lies in none of the five bands gets the fallback
    description "Too good to be true!"; every negative value is such a
    value, and so is NaN. *)
Theorem add_description_fallback :
  (∀ v, Forall (λ item, in_band v item.1 = false) predictive_power →
        add_description v = "Too good to be true!"%string)
  ∧ (∀ r, r < 0 →
        Forall (λ item, in_band (Fin r) item.1 = false) predictive_power
        ∧ add_description (Fin r) = "Too good to be true!"%string)
  ∧ add_description NaN = "Too good to be true!"%string.
Proof.
  assert (∀ v, Forall (λ item, in_band v item.1 = false) predictive_power →
               add_description v = "Too good to be true!"%string) as Hfall.
  { intros v Hnone. unfold add_description. by rewrite first_band_none. }
  split; [exact Hfall|]. split; [|done].
  intros r Hr. split; [by apply negative_in_no_band|].
  by apply Hfall, negative_in_no_band.
Qed.

Lemma add_description_fallback_witness :
  add_description (Fin (-1)) = "Too good to be true!"%string.
Proof.
  apply (proj1 (proj2 add_description_fallback) (-1)). lra.
Defined.

(** ** Counting *)

Section counting.
Context `{Countable K}.
Implicit Types (l : list K) (k : K) (m : gmap K nat).

Lemma value_counts_default l k :
  default 0%nat (value_counts l !! k) = occurrences k l.
Proof.
  unfold occurrences. induction l as [|a l IH]; simpl; [done|].
  rewrite filter_cons. destruct (decide (a = k)) as [->|Hne].
  - rewrite lookup_insert_eq. simpl. by rewrite IH.
  - by rewrite lookup_insert_ne.
Qed.

Lemma value_counts_None l k : value_counts l !! k = None ↔ k ∉ l.
Proof.
  induction l as [|a l IH]; simpl.
  - rewrite lookup_empty. split; [intros _; apply not_elem_of_nil | done].
  - rewrite not_elem_of_cons. destruct (decide (a = k)) as [->|Hne].
    + rewrite lookup_insert_eq. split; [done | intros [? _]; done].
    + rewrite lookup_insert_ne by done. rewrite IH.
      split; [by intros ?; split; [congruence|] | by intros [_ ?]].
Qed.

Lemma value_counts_Some l k n :
  value_counts l !! k = Some n → n = occurrences k l ∧ (0 < n)%nat ∧ k ∈ l.
Proof.
  intros Hn. pose proof (value_counts_default l k) as Hd.
  rewrite Hn in Hd. simpl in Hd. subst n.
  assert (k ∈ l) as Hin.
  { destruct (decide (k ∈ l)) as [|Hnot]; [done|].
    apply value_counts_None in Hnot. congruence. }
  split_and!; [done | | done].
  unfold occurrences.
  assert (k ∈ filter (λ k', k' = k) l) as Hf by (by apply list_elem_of_filter).
  destruct (filter (λ k', k' = k) l); [by apply elem_of_nil in Hf | simpl; lia].
Qed.

Lemma total_insert m k n :
  m !! k = None → total (<[k := n]> m) = (n + total m)%nat.
Proof.
  intros. unfold total. rewrite map_fold_insert_L; [done | intros; lia | done].
Qed.

Lemma total_delete m k n :
  m !! k = Some n → total m = (n + total (delete k m))%nat.
Proof.
  intros Hk. rewrite <-(insert_delete_id m k n) at 1 by done.
  apply total_insert, lookup_delete_eq.
Qed.

(** The counts of [value_counts] add up to the number of values. *)
Lemma total_value_counts l : total (value_counts l) = length l.
Proof.
  induction l as [|a l IH]; simpl; [done|].
  destruct (value_counts l !! a) as [n|] eqn:Ha; simpl.
  - rewrite <-insert_delete_eq, total_insert by apply lookup_delete_eq.
    rewrite (total_delete _ _ _ Ha) in IH. lia.
  - rewrite total_insert by done. lia.
Qed.

Lemma occurrences_le_length k l : (occurrences k l ≤ length l)%nat.
Proof. apply length_filter. Qed.
End counting.

(** ** Sums of Series *)

Lemma series_sum_empty : series_sum ∅ = Fin 0.
Proof. apply map_fold_empty. Qed.

Lemma series_sum_insert (s : gmap string fl) k v :
  s !! k = None →
  series_sum (<[k := v]> s)
  = if is_nan v then series_sum s else fadd v (series_sum s).
Proof.
  intros Hk. unfold series_sum. rewrite map_fold_insert_L; [done | | done].
  intros ?? z1 z2 acc _ _ _.
  destruct (is_nan z1), (is_nan z2); try done. apply fadd_swap.
Qed.

(** [Series.sum()] adds the cells that are not [NaN]. *)
Lemma series_sum_defined (s : gmap string fl) :
  series_sum s =
    foldr fadd (Fin 0) (filter (λ v, is_nan v = false) (map_to_list s).*2).
Proof.
  unfold series_sum. rewrite map_fold_foldr.
  induction (map_to_list s) as [|[k v] l IH]; [done|].
  cbn [foldr fmap list_fmap uncurry snd]. rewrite filter_cons.
  destruct v; simpl; by rewrite IH.
Qed.

Lemma series_sum_div_scalar (counts : gmap string nat) n :
  (0 < n)%nat →
  series_sum (div_scalar counts n) = Fin (INR (total counts) / INR n).
Proof.
  intros Hn. apply lt_0_INR in Hn.
  induction counts as [|k c m Hk IH] using map_ind.
  - unfold div_scalar, total. rewrite fmap_empty, series_sum_empty, map_fold_empty.
    simpl. f_equal. lra.
  - unfold div_scalar in *. rewrite fmap_insert, series_sum_insert.
    2:{ by rewrite lookup_fmap, Hk. }
    rewrite IH, total_insert, fdiv_fin_pos by done. simpl.
    rewrite plus_INR. f_equal. lra.
Qed.

(** ** The groups of [__calc_perc] *)

Lemma group_feat_cons t c x l y :
  group_feat t (c :: x) (l :: y) =
    match (if decide (l = t) then c else None) with
    | Some k => k :: group_feat t x y
    | None => group_feat t x y
    end.
Proof. done. Qed.

Lemma group_feat_length_le t x y :
  (length (group_feat t x y) ≤ occurrences t y)%nat.
Proof.
  revert y. induction x as [|c x IH]; intros [|l y]; try (simpl; lia).
  rewrite group_feat_cons. unfold occurrences in *. rewrite filter_cons.
  specialize (IH y).
  destruct (decide (l = t)); [destruct c|]; simpl; lia.
Qed.

(** When no row of the group lacks its category, the group has as many
    cells as the target has rows with that label. *)
Lemma group_feat_length_full t x y :
  length x = length y →
  (∀ i, y !! i = Some t → x !! i ≠ Some None) →
  length (group_feat t x y) = occurrences t y.
Proof.
  revert y. induction x as [|c x IH]; intros [|l y] Hlen Hfull; try done.
  rewrite group_feat_cons. unfold occurrences in *. rewrite filter_cons.
  assert (length (group_feat t x y) = length (filter (λ k', k' = t) y)) as IH'.
  { apply IH; [simpl in Hlen; lia|]. intros i. apply (Hfull (S i)). }
  destruct (decide (l = t)) as [->|]; [|done].
  destruct c as [k|]; [simpl; lia|]. by destruct (Hfull 0%nat).
Qed.

Lemma group_feat_absent t x y : t ∉ y → group_feat t x y = [].
Proof.
  intros Hy. pose proof (group_feat_length_le t x y) as Hle.
  assert (occurrences t y = 0%nat) as Hz.
  { unfold occurrences.
    destruct (filter (λ k', k' = t) y) as [|a ?] eqn:Hf; [done|].
    assert (a ∈ filter (λ k', k' = t) y) as Ha by (rewrite Hf; left).
    apply list_elem_of_filter in Ha as [-> ?]. done. }
  destruct (group_feat t x y); [done | simpl in Hle; lia].
Qed.

Lemma grouped_value_counts_inr t x y counts :
  grouped_value_counts t x y = inr counts →
  counts = value_counts (group_feat t x y).
Proof. unfold grouped_value_counts. case_decide; congruence. Qed.

Lemma grouped_value_counts_inl t x y e :
  grouped_value_counts t x y = inl e → e = KeyError (KInt t).
Proof. unfold grouped_value_counts. case_decide; congruence. Qed.

Lemma grouped_value_counts_absent t x y :
  t ∉ y → grouped_value_counts t x y = inl (KeyError (KInt t)).
Proof.
  intros Hy. unfold grouped_value_counts.
  rewrite group_feat_absent by done. simpl. by case_decide.
Qed.

Lemma getitem_inr {A} key (entry : option A) a :
  getitem key entry = inr a → entry = Some a.
Proof. destruct entry; simpl; congruence. Qed.

(** What a [__calc_perc] that returns has computed. *)
Lemma calc_perc_inr x y p_event p_non_event :
  calc_perc x y = inr (p_event, p_non_event) →
  length x = length y ∧
  ∃ n1 n0,
    value_counts y !! 1%Z = Some n1 ∧ value_counts y !! 0%Z = Some n0 ∧
    p_event = div_scalar (value_counts (group_feat 1 x y)) n1 ∧
    p_non_event = div_scalar (value_counts (group_feat 0 x y)) n0.
Proof.
  unfold calc_perc. case_decide as Hlen; [|done].
  destruct (grouped_value_counts 1 x y) as [|c1] eqn:Hc1; [done|]. simpl.
  destruct (getitem (KInt 1) _) as [|n1] eqn:Hn1; [done|]. simpl.
  destruct (grouped_value_counts 0 x y) as [|c0] eqn:Hc0; [done|]. simpl.
  destruct (getitem (KInt 0) _) as [|n0] eqn:Hn0; [done|]. simpl.
  intros [= <- <-]. split; [done|]. exists n1, n0.
  apply grouped_value_counts_inr in Hc1 as ->, Hc0 as ->.
  by apply getitem_inr in Hn1, Hn0.
Qed.

(** Every proportion is a finite number in (0, 1]. *)
Lemma proportion_range t x y n k v :
  value_counts y !! t = Some n →
  div_scalar (value_counts (group_feat t x y)) n !! k = Some v →
  ∃ r, v = Fin r ∧ 0 < r <= 1.
Proof.
  intros Hn Hv. apply value_counts_Some in Hn as (-> & Hpos & _).
  unfold div_scalar in Hv. rewrite lookup_fmap in Hv.
  destruct (value_counts (group_feat t x y) !! k) as [c|] eqn:Hc; [|done].
  simpl in Hv. injection Hv as <-.
  apply value_counts_Some in Hc as (-> & Hc & _).
  pose proof (occurrences_le_length k (group_feat t x y)) as H1.
  pose proof (group_feat_length_le t x y) as H2.
  set (c := occurrences k (group_feat t x y)) in *.
  set (n := occurrences t y) in *.
  assert (0 < INR c) by (by apply lt_0_INR).
  assert (0 < INR n) by (by apply lt_0_INR).
  assert (INR c <= INR n) by (apply le_INR; lia).
  exists (INR c / INR n). split; [by apply fdiv_fin_pos|]. split.
  - by apply Rdiv_lt_0_compat.
  - replace 1 with (INR n / INR n) by (field; lra).
    apply Rmult_le_compat_r; [|done]. left. by apply Rinv_0_lt_compat.
Qed.

Lemma calc_perc_range x y pe pn c v :
  calc_perc x y = inr (pe, pn) →
  pe !! c = Some v ∨ pn !! c = Some v →
  ∃ r, v = Fin r ∧ 0 < r <= 1.
Proof.
  intros (_ & n1 & n0 & Hn1 & Hn0 & -> & ->)%calc_perc_inr [Hv|Hv];
    eauto using proportion_range.
Qed.

(** ** Proportions in float64 *)

Lemma pow_le_anti b k k' : 0 <= b <= 1 → (k ≤ k')%nat → b ^ k' <= b ^ k.
Proof.
  intros Hb Hle. induction Hle as [|k' _ IH]; [lra|].
  assert (0 <= b ^ k') by (apply pow_le; lra). simpl. nra.
Qed.

Lemma float_sum_nonempty rnd l s : float_sum rnd l s → l ≠ [].
Proof.
  induction 1 as [a|l1 l2 s1 s2 _ IH1 _ _]; [done|].
  by destruct l1.
Qed.

(** Every list with a cell has a float sum (from left to right). *)
Lemma float_sum_exists rnd l : l ≠ [] → ∃ s, float_sum rnd l s.
Proof.
  induction l as [|a [|b l] IH]; intros Hne; [done| |].
  - exists a. constructor.
  - destruct IH as [s Hs]; [done|].
    exists (round rnd (fadd a s)). apply (float_sum_add rnd [a] (b :: l) a s);
      [constructor | done].
Qed.

Lemma series_sum_float_exists rnd s : ∃ total, series_sum_float rnd s total.
Proof.
  unfold series_sum_float.
  destruct (filter (λ v, is_nan v = false) (map_to_list s).*2) as [|a l] eqn:Hl.
  - exists (Fin 0), []. split; [done|]. by left.
  - destruct (float_sum_exists rnd (a :: l)) as [t Ht]; [done|].
    exists t, (a :: l). split; [done|]. by right.
Qed.

Lemma Permutation_fmap_inv {A B} (f : A → B) (l : list B) (k : list A) :
  l ≡ₚ f <$> k → ∃ k', l = f <$> k' ∧ k' ≡ₚ k.
Proof.
  intros Hp. destruct (Permutation_map_inv f k Hp) as (k' & -> & Hk).
  exists k'. split; [done|]. by symmetry.
Qed.

Section rounded_sums.
Variables (rnd : R → R) (u lo hi : R) (n : nat).
Hypothesis Hrnd : rounding rnd u lo hi.
Hypothesis Hn : (0 < n)%nat.
Hypothesis Hlo : lo * INR n <= 1.

Lemma round_bounds r :
  lo <= r <= hi → (1 - u) * r <= rnd r <= (1 + u) * r.
Proof.
  intros Hr. pose proof (round_error _ _ _ _ Hrnd r Hr) as He.
  unfold Rabs in He. destruct (Rcase_abs (rnd r - r)); lra.
Qed.

Lemma quotient_range c :
  (1 ≤ c ≤ n)%nat →
  lo <= INR c / INR n <= hi ∧ 1 / INR n <= INR c / INR n <= 1.
Proof.
  intros [Hc1 Hcn].
  destruct (range_bound _ _ _ _ Hrnd) as [[Hlo0 Hlo1] Hhi].
  assert (0 < INR n) as HN by (by apply lt_0_INR).
  assert (1 <= INR c) as HC1 by (replace 1 with (INR 1) by done; by apply le_INR).
  assert (INR c <= INR n) as HCN by (by apply le_INR).
  assert (0 < / INR n) as Hi by (by apply Rinv_0_lt_compat).
  assert (INR n * / INR n = 1) as Hinv by (apply Rinv_r; lra).
  unfold Rdiv. set (N := INR n) in *. set (C := INR c) in *. set (i := / N) in *.
  assert (lo <= i) by nra.
  assert (C * i <= 1) by nra.
  assert (1 * i <= C * i) by nra.
  lra.
Qed.

(** A float64 proportion is positive, at most 1, close to the exact
    quotient, and not below the float64 proportion of a single row. *)
Lemma rounded_proportion_bounds c :
  (1 ≤ c ≤ n)%nat →
  let p := rnd (INR c / INR n) in
  0 < p <= 1 ∧ rnd (1 / INR n) <= p
  ∧ (1 - u) * (INR c / INR n) <= p <= (1 + u) * (INR c / INR n).
Proof.
  intros Hc. destruct (quotient_range c Hc) as [Hr [Hq1 Hq2]].
  pose proof (round_bounds _ Hr) as Hb.
  pose proof (roundoff_bound _ _ _ _ Hrnd) as Hu.
  destruct (range_bound _ _ _ _ Hrnd) as [[Hlo0 _] _].
  cbv zeta. split_and!; [nra | | | lra | lra].
  - rewrite <-(round_one _ _ _ _ Hrnd). by apply (round_mono _ _ _ _ Hrnd).
  - by apply (round_mono _ _ _ _ Hrnd).
Qed.

Lemma single_row_bounds :
  let m := rnd (1 / INR n) in 0 < m ∧ lo <= 2 * m ∧ rnd m = m.
Proof.
  assert (1 ≤ 1 ≤ n)%nat as H1 by lia.
  destruct (quotient_range 1 H1) as [Hr _].
  destruct (rounded_proportion_bounds 1 H1) as ([Hp _] & _ & Hb & _).
  pose proof (roundoff_bound _ _ _ _ Hrnd) as Hu.
  change (INR 1) with 1 in *. cbv zeta in *.
  split_and!; [done | nra | apply (round_idem _ _ _ _ Hrnd)].
Qed.

(** The float sum of float64 proportions, whatever the nesting of the
    additions: each of the [length cs] roundings that a cell goes through
    moves it by a factor between [1 - u] and [1 + u]. *)
Lemma float_sum_bounds l s :
  float_sum rnd l s →
  ∀ cs, l = rounded_proportion rnd n <$> cs →
    Forall (λ c, (1 ≤ c ≤ n)%nat) cs →
    (1 + u) ^ length cs * (INR (sum_list cs) / INR n) <= hi →
    ∃ r, s = Fin r ∧ rnd (1 / INR n) <= r
      ∧ (1 - u) ^ length cs * (INR (sum_list cs) / INR n) <= r
          <= (1 + u) ^ length cs * (INR (sum_list cs) / INR n).
Proof.
  pose proof (roundoff_bound _ _ _ _ Hrnd) as Hu.
  destruct single_row_bounds as (Hm0 & Hm2 & Hmid). cbv zeta in *.
  assert (0 < INR n) as HN by (by apply lt_0_INR).
  assert (0 < / INR n) as Hi by (by apply Rinv_0_lt_compat).
  induction 1 as [a|l1 l2 s1 s2 H1 IH1 H2 IH2]; intros cs Hcs Hall Hhi.
  - destruct cs as [|c [|? ?]]; try done. injection Hcs as ->.
    apply Forall_cons in Hall as [Hc _].
    destruct (rounded_proportion_bounds c Hc) as (_ & Hm & Hb). cbv zeta in *.
    exists (rnd (INR c / INR n)). split; [done|]. split; [done|].
    replace (sum_list [c]) with c by (simpl; lia). simpl length. simpl pow. lra.
  - symmetry in Hcs. apply fmap_app_inv in Hcs as (cs1 & cs2 & -> & -> & ->).
    apply Forall_app in Hall as [Hall1 Hall2].
    apply float_sum_nonempty in H1, H2.
    assert (1 ≤ length cs1)%nat as Hlen1 by (destruct cs1; [done | simpl; lia]).
    assert (1 ≤ length cs2)%nat as Hlen2 by (destruct cs2; [done | simpl; lia]).
    rewrite length_app, sum_list_with_app, plus_INR in *.
    set (a := length cs1) in *. set (b := length cs2) in *.
    set (Q1 := INR (sum_list cs1) / INR n) in *.
    set (Q2 := INR (sum_list cs2) / INR n) in *.
    replace ((INR (sum_list cs1) + INR (sum_list cs2)) / INR n) with (Q1 + Q2)
      in * by (unfold Q1, Q2; lra).
    assert (0 <= Q1) as HQ1.
    { unfold Q1, Rdiv. apply Rmult_le_pos; [apply pos_INR | lra]. }
    assert (0 <= Q2) as HQ2.
    { unfold Q2, Rdiv. apply Rmult_le_pos; [apply pos_INR | lra]. }
    assert (1 <= (1 + u) ^ a) as HAa by (apply pow_R1_Rle; lra).
    assert (1 <= (1 + u) ^ b) as HAb by (apply pow_R1_Rle; lra).
    assert ((1 + u) ^ (a + b) = (1 + u) ^ a * (1 + u) ^ b) as HAab
      by apply pow_add.
    assert ((1 + u) * (1 + u) ^ a <= (1 + u) ^ (a + b)) as HA1.
    { rewrite tech_pow_Rmult. apply Rle_pow; [lra | lia]. }
    assert ((1 + u) * (1 + u) ^ b <= (1 + u) ^ (a + b)) as HA2.
    { rewrite tech_pow_Rmult. apply Rle_pow; [lra | lia]. }
    assert ((1 - u) ^ (a + b) <= (1 - u) * (1 - u) ^ a) as HB1.
    { rewrite tech_pow_Rmult. apply pow_le_anti; [lra | lia]. }
    assert ((1 - u) ^ (a + b) <= (1 - u) * (1 - u) ^ b) as HB2.
    { rewrite tech_pow_Rmult. apply pow_le_anti; [lra | lia]. }
    assert (0 <= (1 - u) ^ a) as HBa by (apply pow_le; lra).
    assert (0 <= (1 - u) ^ b) as HBb by (apply pow_le; lra).
    assert ((1 + u) ^ a <= (1 + u) ^ (a + b)) as HAa' by (apply Rle_pow; [lra | lia]).
    assert ((1 + u) ^ b <= (1 + u) ^ (a + b)) as HAb' by (apply Rle_pow; [lra | lia]).
    set (Pa := (1 + u) ^ a) in *. set (Pb := (1 + u) ^ b) in *.
    set (Pab := (1 + u) ^ (a + b)) in *.
    set (Ba := (1 - u) ^ a) in *. set (Bb := (1 - u) ^ b) in *.
    set (Bab := (1 - u) ^ (a + b)) in *.
    assert (Pa * Q1 <= Pab * Q1) as HPQ1 by (by apply Rmult_le_compat_r).
    assert (Pb * Q2 <= Pab * Q2) as HPQ2 by (by apply Rmult_le_compat_r).
    assert ((1 + u) * Pa * Q1 <= Pab * Q1) as HPQ1' by (by apply Rmult_le_compat_r).
    assert ((1 + u) * Pb * Q2 <= Pab * Q2) as HPQ2' by (by apply Rmult_le_compat_r).
    assert (Bab * Q1 <= (1 - u) * Ba * Q1) as HBQ1 by (by apply Rmult_le_compat_r).
    assert (Bab * Q2 <= (1 - u) * Bb * Q2) as HBQ2 by (by apply Rmult_le_compat_r).
    assert (0 <= Pab * Q1) as HP1 by (apply Rmult_le_pos; lra).
    assert (0 <= Pab * Q2) as HP2 by (apply Rmult_le_pos; lra).
    destruct (IH1 cs1 eq_refl Hall1) as (r1 & -> & Hm1 & Hlow1 & Hup1);
      [change (Pa * Q1 <= hi); lra|].
    destruct (IH2 cs2 eq_refl Hall2) as (r2 & -> & Hm2' & Hlow2 & Hup2);
      [change (Pb * Q2 <= hi); lra|].
    change (Ba * Q1 <= r1) in Hlow1. change (r1 <= Pa * Q1) in Hup1.
    change (Bb * Q2 <= r2) in Hlow2. change (r2 <= Pb * Q2) in Hup2.
    assert (lo <= r1 + r2 <= hi) as Hr by lra.
    pose proof (round_bounds _ Hr) as Hb.
    assert ((1 + u) * r1 <= (1 + u) * (Pa * Q1)) as Hu1
      by (apply Rmult_le_compat_l; lra).
    assert ((1 + u) * r2 <= (1 + u) * (Pb * Q2)) as Hu2
      by (apply Rmult_le_compat_l; lra).
    assert ((1 - u) * (Ba * Q1) <= (1 - u) * r1) as Hl1
      by (apply Rmult_le_compat_l; lra).
    assert ((1 - u) * (Bb * Q2) <= (1 - u) * r2) as Hl2
      by (apply Rmult_le_compat_l; lra).
    exists (rnd (r1 + r2)). split; [done|]. split_and!.
    + rewrite <-Hmid. apply (round_mono _ _ _ _ Hrnd). lra.
    + lra.
    + lra.
Qed.

End rounded_sums.

(** ** [__calc_perc] in float64 *)

Lemma calc_perc_float_inr rnd x y p_event p_non_event :
  calc_perc_float rnd x y = inr (p_event, p_non_event) →
  ∃ pe pn, calc_perc x y = inr (pe, pn)
           ∧ p_event = round rnd <$> pe ∧ p_non_event = round rnd <$> pn.
Proof.
  unfold calc_perc_float. destruct (calc_perc x y) as [e|[pe pn]]; [done|].
  cbn [bind_exn fst snd]. intros [= <- <-]. by exists pe, pn.
Qed.

Lemma round_div_scalar rnd (counts : gmap string nat) n :
  (0 < n)%nat →
  round rnd <$> div_scalar counts n = rounded_proportion rnd n <$> counts.
Proof.
  intros Hn%lt_0_INR. unfold div_scalar. rewrite <-map_fmap_compose.
  apply map_fmap_ext. intros k c _. unfold compose, rounded_proportion.
  by rewrite fdiv_fin_pos.
Qed.

Lemma rounded_proportion_cells rnd n (counts : gmap string nat) :
  filter (λ v, is_nan v = false)
    (map_to_list (rounded_proportion rnd n <$> counts)).*2
  = rounded_proportion rnd n <$> (map_to_list counts).*2.
Proof.
  rewrite map_to_list_fmap.
  induction (map_to_list counts) as [|[k c] l IH]; [done|].
  rewrite !fmap_cons. cbn [prod_map fst snd].
  rewrite filter_cons_True by done. by rewrite IH.
Qed.

Lemma total_sum_list `{Countable K} (m : gmap K nat) :
  total m = sum_list (map_to_list m).*2.
Proof.
  unfold total. rewrite map_fold_foldr.
  induction (map_to_list m) as [|[k c] l IH]; [done|].
  rewrite fmap_cons. simpl. by rewrite IH.
Qed.

Lemma length_le_sum_list (cs : list nat) :
  Forall (λ c, (1 ≤ c)%nat) cs → (length cs ≤ sum_list cs)%nat.
Proof. induction 1 as [|c cs Hc _ IH]; simpl; [done|]. unfold id. lia. Qed.

Lemma group_counts_range t x y :
  Forall (λ c, (1 ≤ c ≤ occurrences t y)%nat)
    (map_to_list (value_counts (group_feat t x y))).*2.
Proof.
  apply Forall_forall. intros c ([k c'] & -> & Hkc)%list_elem_of_fmap.
  apply elem_of_map_to_list in Hkc. simpl.
  apply value_counts_Some in Hkc as (-> & Hpos & _).
  pose proof (occurrences_le_length k (group_feat t x y)).
  pose proof (group_feat_length_le t x y). lia.
Qed.

(** The float64 proportions of a class without missing cell add up to 1
    within the rounding of one division and of the additions. *)
Lemma class_proportions_float rnd u lo hi t x y n total :
  rounding rnd u lo hi → lo * INR (length y) <= 1 →
  (1 + u) ^ length y <= hi →
  length x = length y → value_counts y !! t = Some n →
  (∀ i, y !! i = Some t → x !! i ≠ Some None) →
  let p := round rnd <$> div_scalar (value_counts (group_feat t x y)) n in
  series_sum_float rnd p total →
  ∃ r, total = Fin r ∧ (1 - u) ^ size p <= r <= (1 + u) ^ size p.
Proof.
  intros Hrnd Hlo Hhi Hlen Hn Hfull p. subst p.
  apply value_counts_Some in Hn as (-> & Hpos & _).
  set (n := occurrences t y) in *. set (counts := value_counts (group_feat t x y)).
  pose proof (roundoff_bound _ _ _ _ Hrnd) as Hu.
  destruct (range_bound _ _ _ _ Hrnd) as [[Hlo0 _] _].
  assert (n ≤ length y)%nat as Hny by apply occurrences_le_length.
  assert (sum_list (map_to_list counts).*2 = n) as Hsum.
  { rewrite <-total_sum_list. unfold counts.
    by rewrite total_value_counts, group_feat_length_full. }
  rewrite round_div_scalar, map_size_fmap by done.
  intros (cells & Hperm & Hcells). rewrite rounded_proportion_cells in Hperm.
  apply Permutation_fmap_inv in Hperm as (cs & -> & Hcs).
  assert (Forall (λ c, (1 ≤ c ≤ n)%nat) cs) as Hall.
  { rewrite Hcs. apply group_counts_range. }
  assert (sum_list cs = n) as Hsum' by (by rewrite Hcs).
  assert (length cs = size counts) as Hsize.
  { by rewrite Hcs, length_fmap, length_map_to_list. }
  assert (length cs ≤ n)%nat as Hcsn.
  { rewrite <-Hsum'. apply length_le_sum_list.
    eapply Forall_impl; [exact Hall|]. intros c. simpl. lia. }
  assert (INR n / INR n = 1) as Hone.
  { apply Rdiv_diag. apply not_0_INR. lia. }
  destruct Hcells as [[Hnil _]|Hfloat].
  { destruct cs; [simpl in Hsum'; lia | done]. }
  destruct (float_sum_bounds rnd u lo hi n Hrnd Hpos)
    with (l := rounded_proportion rnd n <$> cs) (s := total) (cs := cs)
    as (r & -> & _ & Hr); [ | done | done | done | |].
  - assert (INR n <= INR (length y)) by (by apply le_INR). nra.
  - rewrite Hsum', Hone, Rmult_1_r.
    transitivity ((1 + u) ^ length y); [|done]. apply Rle_pow; [lra | lia].
  - exists r. split; [done|]. by rewrite Hsum', Hone, !Rmult_1_r, Hsize in Hr.
Qed.

Lemma rounded_proportion_range rnd u lo hi t x y n k v :
  rounding rnd u lo hi → lo * INR (length y) <= 1 →
  value_counts y !! t = Some n →
  (round rnd <$> div_scalar (value_counts (group_feat t x y)) n) !! k = Some v →
  ∃ r, v = Fin r ∧ 0 < r <= 1.
Proof.
  intros Hrnd Hlo Hn Hv. apply value_counts_Some in Hn as (-> & Hpos & _).
  destruct (range_bound _ _ _ _ Hrnd) as [[Hlo0 _] _].
  rewrite round_div_scalar, lookup_fmap in Hv by done.
  destruct (value_counts (group_feat t x y) !! k) as [c|] eqn:Hc; [|done].
  injection Hv as <-.
  apply value_counts_Some in Hc as (-> & Hc & _).
  pose proof (occurrences_le_length k (group_feat t x y)).
  pose proof (group_feat_length_le t x y).
  pose proof (occurrences_le_length t y).
  eexists. split; [done|].
  eapply (rounded_proportion_bounds rnd u lo hi (occurrences t y) Hrnd Hpos);
    [|lia].
  assert (INR (occurrences t y) <= INR (length y)) by (by apply le_INR). nra.
Qed.

(** C9 (as amended).  When [__calc_perc] returns, which needs both classes
    among the rows that have a category: every float64 proportion lies in
    (0, 1]; provided no event row lacks its category, the event proportions
    add up to 1 within the tolerance of floating point, that is, every
    float64 sum of the [k] event proportions lies between (1 - u)^k and
    (1 + u)^k, whatever the order and the nesting of the additions, and in
    exact arithmetic the sum is exactly 1; likewise for the non-event
    proportions provided no non-event row lacks its category.  The
    rounding is any [rounding] whose range covers the table: [lo] times the
    number of rows is at most 1, and (1 + u) to the power of the number of
    rows is at most [hi]. *)
Theorem calc_perc_proportions rnd u lo hi x y p_event p_non_event :
  rounding rnd u lo hi →
  lo * INR (length y) <= 1 → (1 + u) ^ length y <= hi →
  calc_perc_float rnd x y = inr (p_event, p_non_event) →
  (∀ c v, p_event !! c = Some v ∨ p_non_event !! c = Some v →
     ∃ r, v = Fin r ∧ 0 < r <= 1)
  ∧ ((∀ i, y !! i = Some 1%Z → x !! i ≠ Some None) →
       (∃ total, series_sum_float rnd p_event total)
       ∧ ∀ total, series_sum_float rnd p_event total →
           ∃ r, total = Fin r
                ∧ (1 - u) ^ size p_event <= r <= (1 + u) ^ size p_event)
  ∧ ((∀ i, y !! i = Some 0%Z → x !! i ≠ Some None) →
       (∃ total, series_sum_float rnd p_non_event total)
       ∧ ∀ total, series_sum_float rnd p_non_event total →
           ∃ r, total = Fin r
                ∧ (1 - u) ^ size p_non_event <= r <= (1 + u) ^ size p_non_event)
  ∧ ∃ pe pn,
      calc_perc x y = inr (pe, pn)
      ∧ p_event = round rnd <$> pe ∧ p_non_event = round rnd <$> pn
      ∧ ((∀ i, y !! i = Some 1%Z → x !! i ≠ Some None) → series_sum pe = Fin 1)
      ∧ ((∀ i, y !! i = Some 0%Z → x !! i ≠ Some None) → series_sum pn = Fin 1)
      ∧ (∀ c v, pe !! c = Some v ∨ pn !! c = Some v →
           ∃ r, v = Fin r ∧ 0 < r <= 1).
Proof.
  intros Hrnd Hlo Hhi (pe & pn & Hp & -> & ->)%calc_perc_float_inr.
  pose proof Hp as (Hlen & n1 & n0 & Hn1 & Hn0 & -> & ->)%calc_perc_inr.
  split_and!.
  - intros c v [Hv|Hv]; eauto using rounded_proportion_range.
  - intros Hfull. split; [apply series_sum_float_exists|]. intros total.
    by apply (class_proportions_float rnd u lo hi 1%Z x y n1).
  - intros Hfull. split; [apply series_sum_float_exists|]. intros total.
    by apply (class_proportions_float rnd u lo hi 0%Z x y n0).
  - eexists _, _. split; [exact Hp|]. split_and!; [done | done | | |].
    3:{ intros c v Hv. by apply (calc_perc_range _ _ _ _ _ _ Hp Hv). }
    all: intros Hfull.
    all: apply value_counts_Some in Hn1 as (-> & Hpos1 & _), Hn0 as (-> & Hpos0 & _).
    all: rewrite series_sum_div_scalar, total_value_counts, group_feat_length_full
      by done.
    all: f_equal; field; apply not_0_INR; lia.
Qed.

Lemma calc_perc_city :
  calc_perc Sample.x_city Sample.y_city
  = inr (Sample.p_event_city, Sample.p_non_event_city).
Proof. vm_compute. reflexivity. Qed.

Lemma sample_rounding : rounding SampleRounding.rnd (1 / 5) (1 / 10) 10.
Proof.
  split; unfold SampleRounding.rnd.
  - lra.
  - lra.
  - intros r Hr. unfold Rabs.
    destruct (Rle_dec (3 / 10) r); [destruct (Rle_dec r (17 / 50))|];
      destruct (Rcase_abs _); lra.
  - intros r s Hrs.
    destruct (Rle_dec (3 / 10) r); [destruct (Rle_dec r (17 / 50))|];
      (destruct (Rle_dec (3 / 10) s); [destruct (Rle_dec s (17 / 50))|]); lra.
  - intros r.
    destruct (Rle_dec (3 / 10) r) as [H1|H1];
      [destruct (Rle_dec r (17 / 50)) as [H2|H2]|].
    + destruct (Rle_dec (3 / 10) (3 / 10)); [|lra].
      destruct (Rle_dec (3 / 10) (17 / 50)); [done|lra].
    + destruct (Rle_dec (3 / 10) r); [|lra].
      destruct (Rle_dec r (17 / 50)); [lra|done].
    + destruct (Rle_dec (3 / 10) r); [lra|done].
  - destruct (Rle_dec (3 / 10) 1); [|lra].
    destruct (Rle_dec 1 (17 / 50)); [lra|done].
Qed.

Lemma sample_rnd_band r :
  3 / 10 <= r <= 17 / 50 → SampleRounding.rnd r = 3 / 10.
Proof.
  intros Hr. unfold SampleRounding.rnd.
  destruct (Rle_dec (3 / 10) r); [|lra]. destruct (Rle_dec r (17 / 50)); [done|lra].
Qed.

Lemma sample_rnd_float r :
  r < 3 / 10 ∨ 17 / 50 < r → SampleRounding.rnd r = r.
Proof.
  intros Hr. unfold SampleRounding.rnd.
  destruct (Rle_dec (3 / 10) r); [|done]. destruct (Rle_dec r (17 / 50)); [lra|done].
Qed.

(** With the coarse rounding the non-event proportions of the sample,
    1/3 and 2/3, are the floats 0.3 and 2/3, and their float sum is 29/30:
    not 1, and within the bounds. *)
Lemma sample_float_sum :
  series_sum_float SampleRounding.rnd
    (round SampleRounding.rnd <$> Sample.p_non_event_city) (Fin (29 / 30)).
Proof.
  unfold Sample.p_non_event_city. rewrite round_div_scalar by lia.
  exists (rounded_proportion SampleRounding.rnd 3 <$> [1; 2]%nat).
  split; [by rewrite rounded_proportion_cells|]. right.
  assert (Fin (29 / 30)
          = round SampleRounding.rnd
              (fadd (rounded_proportion SampleRounding.rnd 3 1)
                    (rounded_proportion SampleRounding.rnd 3 2))) as ->.
  { unfold rounded_proportion. cbn [round fadd].
    rewrite (sample_rnd_band (INR 1 / INR 3)) by (simpl; lra).
    rewrite (sample_rnd_float (INR 2 / INR 3)) by (simpl; lra).
    rewrite sample_rnd_float by (simpl; lra). f_equal. simpl. lra. }
  apply (float_sum_add _ [_] [_]); constructor.
Qed.

Lemma calc_perc_proportions_witness :
  rounding SampleRounding.rnd (1 / 5) (1 / 10) 10
  ∧ calc_perc_float SampleRounding.rnd Sample.x_city Sample.y_city
    = inr (round SampleRounding.rnd <$> Sample.p_event_city,
           round SampleRounding.rnd <$> Sample.p_non_event_city)
  ∧ series_sum_float SampleRounding.rnd
      (round SampleRounding.rnd <$> Sample.p_non_event_city) (Fin (29 / 30))
  ∧ (1 - 1 / 5) ^ 2 <= 29 / 30 <= (1 + 1 / 5) ^ 2
  ∧ (∀ total,
       series_sum_float SampleRounding.rnd
         (round SampleRounding.rnd <$> Sample.p_non_event_city) total →
       ∃ r, total = Fin r ∧ (1 - 1 / 5) ^ 2 <= r <= (1 + 1 / 5) ^ 2)
  ∧ series_sum Sample.p_non_event_city = Fin 1.
Proof.
  assert (calc_perc_float SampleRounding.rnd Sample.x_city Sample.y_city
          = inr (round SampleRounding.rnd <$> Sample.p_event_city,
                 round SampleRounding.rnd <$> Sample.p_non_event_city)) as Hp.
  { unfold calc_perc_float. by rewrite calc_perc_city. }
  assert (1 / 10 * INR (length Sample.y_city) <= 1) as Hlo by (simpl; lra).
  assert ((1 + 1 / 5) ^ length Sample.y_city <= 10) as Hhi by (simpl; lra).
  assert (∀ i, Sample.y_city !! i = Some 0%Z → Sample.x_city !! i ≠ Some None)
    as Hfull.
  { unfold Sample.x_city, Sample.y_city.
    intros [|[|[|[|[|i]]]]]; simpl; rewrite ?lookup_nil; congruence. }
  destruct (calc_perc_proportions _ _ _ _ _ _ _ _ sample_rounding Hlo Hhi Hp)
    as (_ & _ & Hnon & pe & pn & Hexact & _ & _ & _ & Hone & _).
  destruct (Hnon Hfull) as [_ Hsum].
  assert (size (round SampleRounding.rnd <$> Sample.p_non_event_city) = 2%nat)
    as Hsize by (vm_compute; reflexivity).
  rewrite Hsize in Hsum.
  rewrite calc_perc_city in Hexact. injection Hexact as <- <-.
  destruct (Hsum _ sample_float_sum) as (r & [= <-] & Hr).
  split; [exact sample_rounding|]. split; [exact Hp|].
  split; [exact sample_float_sum|]. split; [exact Hr|].
  split; [exact Hsum|]. exact (Hone Hfull).
Defined.

(** C9 as stated fails when an event row has a missing category: with
    cities (missing, A, B) and targets (1, 1, 0) the estimator returns, and
    the event proportions add up to 1/2. *)
Lemma calc_perc_missing_category_sum :
  calc_perc Sample.x_gap Sample.y_gap
    = inr (Sample.p_event_gap, Sample.p_non_event_gap)
  ∧ series_sum Sample.p_event_gap = Fin (1 / 2)
  ∧ series_sum Sample.p_event_gap ≠ Fin 1.
Proof.
  assert (series_sum Sample.p_event_gap = Fin (1 / 2)) as Hsum.
  { unfold Sample.p_event_gap.
    rewrite series_sum_div_scalar, total_value_counts by lia.
    simpl. apply f_equal. lra. }
  split; [vm_compute; reflexivity|]. split; [done|].
  rewrite Hsum. intros [= Heq]. lra.
Qed.

(** ** One feature *)

Lemma align_with_lookup op (a b : gmap string fl) k :
  align_with op a b !! k =
    match a !! k, b !! k with
    | None, None => None
    | u, v => Some (op (default NaN u) (default NaN v))
    end.
Proof.
  unfold align_with. rewrite lookup_merge. by destruct (a !! k), (b !! k).
Qed.

Lemma fit_feature_woe_lookup fo (pe pn : gmap string fl) k :
  (fit_feature fo pe pn).1 !! k =
    match pn !! k, pe !! k with
    | None, None => None
    | u, v => Some (woe_cell (default NaN u) (default NaN v))
    end.
Proof.
  unfold fit_feature, series_fillna. simpl.
  rewrite !lookup_fmap, align_with_lookup.
  by destruct (pn !! k), (pe !! k).
Qed.

Lemma fit_feature_iv_lookup fo (pe pn : gmap string fl) k :
  (fit_feature fo pe pn).2 !! k =
    match pn !! k, pe !! k with
    | None, None => None
    | u, v => Some (iv_cell fo (default NaN u) (default NaN v))
    end.
Proof.
  unfold fit_feature, series_fillna, iv_cell, woe_cell. simpl.
  destruct fo as [f|]; rewrite ?lookup_fmap, !align_with_lookup, !lookup_fmap,
    align_with_lookup; by destruct (pn !! k), (pe !! k).
Qed.

Lemma woe_cell_fin ra rb :
  0 < ra → 0 < rb → woe_cell (Fin rb) (Fin ra) = Fin (ln (rb / ra)).
Proof.
  intros Ha Hb. unfold woe_cell.
  rewrite fdiv_fin_pos, flog_fin_pos; [done | | done].
  by apply Rdiv_lt_0_compat.
Qed.

Lemma iv_cell_fin fo ra rb :
  0 < ra → 0 < rb →
  iv_cell fo (Fin rb) (Fin ra) = Fin ((rb - ra) * ln (rb / ra)).
Proof.
  intros Ha Hb. unfold iv_cell. rewrite woe_cell_fin by done.
  by destruct fo.
Qed.

Lemma woe_cell_nan_l v : woe_cell NaN v = Fin 0.
Proof. done. Qed.

Lemma woe_cell_nan_r u : woe_cell u NaN = Fin 0.
Proof. by destruct u. Qed.

Lemma iv_cell_nan_l fo v : iv_cell fo NaN v = default NaN fo.
Proof. by destruct fo. Qed.

Lemma iv_cell_nan_r fo u : iv_cell fo u NaN = default NaN fo.
Proof. by destruct fo, u. Qed.

Lemma calc_perc_fin x y pe pn c v :
  calc_perc x y = inr (pe, pn) → pe !! c = Some v ∨ pn !! c = Some v →
  ∃ r, v = Fin r ∧ 0 < r.
Proof.
  intros Hp Hv. destruct (calc_perc_range _ _ _ _ _ _ Hp Hv) as (r & -> & ? & _).
  eauto.
Qed.

(** The stored WoE of a category, by the sides it has. *)
Lemma fit_feature_woe_cases x y fo pe pn c w :
  calc_perc x y = inr (pe, pn) →
  (fit_feature fo pe pn).1 !! c = Some w →
  (∃ ra rb, pe !! c = Some (Fin ra) ∧ pn !! c = Some (Fin rb)
            ∧ 0 < ra ∧ 0 < rb ∧ w = Fin (ln (rb / ra)))
  ∨ (one_sided pe pn c ∧ w = Fin 0).
Proof.
  intros Hp. rewrite fit_feature_woe_lookup.
  destruct (pe !! c) as [a|] eqn:Ha, (pn !! c) as [b|] eqn:Hb; [| | |done].
  - destruct (calc_perc_fin _ _ _ _ c a Hp) as (ra & -> & ?); [by left|].
    destruct (calc_perc_fin _ _ _ _ c b Hp) as (rb & -> & ?); [by right|].
    simpl default. rewrite woe_cell_fin by done. intros [= <-].
    left. by exists ra, rb.
  - simpl default. rewrite woe_cell_nan_l. intros [= <-].
    right. split; [|done]. left. eauto.
  - simpl default. rewrite woe_cell_nan_r. intros [= <-].
    right. split; [|done]. right. eauto.
Qed.

Lemma fit_feature_iv_cases x y fo pe pn c v :
  calc_perc x y = inr (pe, pn) →
  (fit_feature fo pe pn).2 !! c = Some v →
  (∃ ra rb, pe !! c = Some (Fin ra) ∧ pn !! c = Some (Fin rb)
            ∧ 0 < ra ∧ 0 < rb ∧ v = Fin ((rb - ra) * ln (rb / ra)))
  ∨ (one_sided pe pn c ∧ v = default NaN fo).
Proof.
  intros Hp. rewrite fit_feature_iv_lookup.
  destruct (pe !! c) as [a|] eqn:Ha, (pn !! c) as [b|] eqn:Hb; [| | |done].
  - destruct (calc_perc_fin _ _ _ _ c a Hp) as (ra & -> & ?); [by left|].
    destruct (calc_perc_fin _ _ _ _ c b Hp) as (rb & -> & ?); [by right|].
    simpl default. rewrite iv_cell_fin by done. intros [= <-].
    left. by exists ra, rb.
  - simpl default. rewrite iv_cell_nan_l. intros [= <-].
    right. split; [|done]. left. eauto.
  - simpl default. rewrite iv_cell_nan_r. intros [= <-].
    right. split; [|done]. right. eauto.
Qed.

(** ** The loop of [fit] *)

Lemma fit_loop_config fs X y self self' r :
  fit_loop fs X y self = (self', r) →
  feats self' = feats self ∧ drop_original self' = drop_original self ∧
  fillna self' = fillna self ∧ prefix self' = prefix self ∧
  suffix self' = suffix self ∧ is_fitted self' = is_fitted self.
Proof.
  revert self. induction fs as [|feat rest IH]; intros self; simpl.
  - by intros [= <- _].
  - destruct (bind_exn _ _) as [e|[pe pn]]; [by intros [= <- _]|].
    destruct (fit_feature (fillna self) pe pn) as [woe iv]. intros Hrest.
    by apply IH in Hrest.
Qed.

(** After a loop without exception, each feature of the list holds the
    tables computed from its column, and the other entries are as before. *)
Lemma fit_loop_stored fs X y self self' :
  fit_loop fs X y self = (self', None) →
  ∀ feat,
    (feat ∈ fs →
       ∃ x pe pn, X !! feat = Some x ∧ calc_perc x y = inr (pe, pn) ∧
         transform_dict_woe self' !! feat
           = Some (fit_feature (fillna self) pe pn).1 ∧
         transform_dict_iv self' !! feat
           = Some (fit_feature (fillna self) pe pn).2)
    ∧ (feat ∉ fs →
         transform_dict_woe self' !! feat = transform_dict_woe self !! feat ∧
         transform_dict_iv self' !! feat = transform_dict_iv self !! feat).
Proof.
  revert self. induction fs as [|f rest IH]; intros self; cbn [fit_loop].
  - intros [= <-] feat. split; [by intros ?%elem_of_nil | done].
  - destruct (X !! f) as [x|] eqn:Hx; cbn [getitem bind_exn]; [|done].
    destruct (calc_perc x y) as [e|[pe pn]] eqn:Hp; [done|].
    destruct (fit_feature (fillna self) pe pn) as [woe iv] eqn:Hf.
    intros Hrest feat. destruct (IH _ Hrest feat) as [Hin Hout].
    cbn [store fillna transform_dict_woe transform_dict_iv] in Hin, Hout.
    split.
    + intros Hfeat. destruct (decide (feat ∈ rest)) as [Hr|Hr]; [by apply Hin|].
      apply elem_of_cons in Hfeat as [->|]; [|done].
      destruct (Hout Hr) as [-> ->]. rewrite !lookup_insert_eq.
      exists x, pe, pn. by rewrite Hf.
    + intros [Hne Hr]%not_elem_of_cons. destruct (Hout Hr) as [-> ->].
      by rewrite !lookup_insert_ne.
Qed.

(** What a [fit] that returns has stored. *)
Lemma fit_inr self X y self' :
  fit self X y = (self', None) →
  is_fitted self' = true ∧ feats self' = feats self ∧
  fillna self' = fillna self ∧
  ∀ feat, feat ∈ feats self →
    ∃ x pe pn, X !! feat = Some x ∧ calc_perc x y = inr (pe, pn) ∧
      transform_dict_woe self' !! feat
        = Some (fit_feature (fillna self) pe pn).1 ∧
      transform_dict_iv self' !! feat
        = Some (fit_feature (fillna self) pe pn).2.
Proof.
  unfold fit. destruct (fit_loop _ _ _ _) as [s [e|]] eqn:Hloop; [done|].
  intros [= <-]. simpl.
  destruct (fit_loop_config _ _ _ _ _ _ Hloop) as (-> & _ & -> & _).
  split_and!; try done.
  intros feat Hfeat. by apply (fit_loop_stored _ _ _ _ _ Hloop).
Qed.

Lemma fit_city :
  fit Sample.enc_city Sample.X_city Sample.y_city = (Sample.fitted_city, None).
Proof. vm_compute. reflexivity. Qed.

Lemma city_in_feats : "city"%string ∈ feats Sample.enc_city.
Proof. left. Qed.

Lemma lookup_X_city x : Sample.X_city !! "city"%string = Some x → x = Sample.x_city.
Proof. unfold Sample.X_city. rewrite lookup_singleton_eq. congruence. Qed.

(** ** The fitted tables *)

(** C1. After [fit] has returned, every configured feature has a column whose
    proportions were computed, and for every category with both
    proportions [a] (events) and [b] (non-events): both are positive finite
    numbers, the stored WoE is ln(b / a), and the stored IV contribution is
    (b - a) times that stored WoE.  When a fill value is configured, the
    contribution of a category seen in one class only, which is undefined,
    is stored as the fill value. *)
Theorem fit_stores_woe_and_iv self X y self' feat :
  fit self X y = (self', None) → feat ∈ feats self →
  ∃ x p_event p_non_event woe iv,
    X !! feat = Some x ∧ calc_perc x y = inr (p_event, p_non_event) ∧
    transform_dict_woe self' !! feat = Some woe ∧
    transform_dict_iv self' !! feat = Some iv ∧
    (∀ c a b, p_event !! c = Some a → p_non_event !! c = Some b →
       ∃ ra rb, a = Fin ra ∧ b = Fin rb ∧ 0 < ra ∧ 0 < rb ∧
         woe !! c = Some (Fin (ln (rb / ra))) ∧
         iv !! c = Some (Fin ((rb - ra) * ln (rb / ra)))) ∧
    (∀ c v, fillna self = Some v → one_sided p_event p_non_event c →
       iv !! c = Some v).
Proof.
  intros Hfit Hfeat.
  destruct (fit_inr _ _ _ _ Hfit) as (_ & _ & _ & Hstored).
  destruct (Hstored feat Hfeat) as (x & pe & pn & Hx & Hp & Hwoe & Hiv).
  exists x, pe, pn, (fit_feature (fillna self) pe pn).1,
    (fit_feature (fillna self) pe pn).2.
  split_and!; try done.
  - intros c a b Ha Hb.
    destruct (calc_perc_range _ _ _ _ c a Hp) as (ra & -> & Hra & _); [by left|].
    destruct (calc_perc_range _ _ _ _ c b Hp) as (rb & -> & Hrb & _); [by right|].
    exists ra, rb. rewrite fit_feature_woe_lookup, fit_feature_iv_lookup, Ha, Hb.
    simpl default. by rewrite woe_cell_fin, iv_cell_fin.
  - intros c v Hv Hone. rewrite fit_feature_iv_lookup, Hv.
    destruct Hone as [[[a Ha] Hb]|[Ha [b Hb]]]; rewrite Ha, Hb; simpl default.
    + by rewrite iv_cell_nan_l.
    + by rewrite iv_cell_nan_r.
Qed.

Lemma fit_stores_woe_and_iv_witness :
  fit Sample.enc_city Sample.X_city Sample.y_city = (Sample.fitted_city, None)
  ∧ "city"%string ∈ feats Sample.enc_city
  ∧ ∃ woe iv ra rb,
      transform_dict_woe Sample.fitted_city !! "city"%string = Some woe
      ∧ transform_dict_iv Sample.fitted_city !! "city"%string = Some iv
      ∧ Sample.p_event_city !! "A"%string = Some (Fin ra)
      ∧ Sample.p_non_event_city !! "A"%string = Some (Fin rb)
      ∧ woe !! "A"%string = Some (Fin (ln (rb / ra)))
      ∧ iv !! "A"%string = Some (Fin ((rb - ra) * ln (rb / ra))).
Proof.
  assert (fit Sample.enc_city Sample.X_city Sample.y_city
          = (Sample.fitted_city, None)) as Hfit by (vm_compute; reflexivity).
  assert ("city"%string ∈ feats Sample.enc_city) as Hin by left.
  split; [exact Hfit|]. split; [exact Hin|].
  destruct (fit_stores_woe_and_iv _ _ _ _ _ Hfit Hin)
    as (x & pe & pn & woe & iv & Hx & Hp & Hwoe & Hiv & Hboth & _).
  apply lookup_X_city in Hx as ->.
  rewrite calc_perc_city in Hp. injection Hp as <- <-.
  destruct (Hboth "A"%string (fdiv (Fin (INR 2)) (Fin (INR 2)))
              (fdiv (Fin (INR 1)) (Fin (INR 3))))
    as (ra & rb & Ha & Hb & _ & _ & HwA & HivA);
    [vm_compute; reflexivity | vm_compute; reflexivity |].
  exists woe, iv, ra, rb. rewrite <-Ha, <-Hb.
  split_and!; [done | done | vm_compute; reflexivity | vm_compute; reflexivity
              | done | done].
Defined.

(** C2. After [fit] has returned, every category of a configured feature
    that has a proportion in one class only is stored in the WoE table
    with the value 0. *)
Theorem fit_one_sided_woe_zero self X y self' feat :
  fit self X y = (self', None) → feat ∈ feats self →
  ∃ x p_event p_non_event woe,
    X !! feat = Some x ∧ calc_perc x y = inr (p_event, p_non_event) ∧
    transform_dict_woe self' !! feat = Some woe ∧
    ∀ c, one_sided p_event p_non_event c → woe !! c = Some (Fin 0).
Proof.
  intros Hfit Hfeat.
  destruct (fit_inr _ _ _ _ Hfit) as (_ & _ & _ & Hstored).
  destruct (Hstored feat Hfeat) as (x & pe & pn & Hx & Hp & Hwoe & Hiv).
  exists x, pe, pn, (fit_feature (fillna self) pe pn).1.
  split_and!; try done.
  intros c Hone. rewrite fit_feature_woe_lookup.
  destruct Hone as [[[a Ha] Hb]|[Ha [b Hb]]]; rewrite Ha, Hb; simpl default.
  - by rewrite woe_cell_nan_l.
  - by rewrite woe_cell_nan_r.
Qed.

Lemma fit_one_sided_woe_zero_witness :
  fit Sample.enc_city Sample.X_city Sample.y_city = (Sample.fitted_city, None)
  ∧ "city"%string ∈ feats Sample.enc_city
  ∧ one_sided Sample.p_event_city Sample.p_non_event_city "B"
  ∧ ∃ woe,
      transform_dict_woe Sample.fitted_city !! "city"%string = Some woe
      ∧ woe !! "B"%string = Some (Fin 0).
Proof.
  assert (fit Sample.enc_city Sample.X_city Sample.y_city
          = (Sample.fitted_city, None)) as Hfit by (vm_compute; reflexivity).
  assert ("city"%string ∈ feats Sample.enc_city) as Hin by left.
  assert (one_sided Sample.p_event_city Sample.p_non_event_city "B") as Hone.
  { right. split; [vm_compute; reflexivity|].
    eexists. vm_compute. reflexivity. }
  split; [exact Hfit|]. split; [exact Hin|]. split; [exact Hone|].
  destruct (fit_one_sided_woe_zero _ _ _ _ _ Hfit Hin)
    as (x & pe & pn & woe & Hx & Hp & Hwoe & Hzero).
  apply lookup_X_city in Hx as ->.
  rewrite calc_perc_city in Hp. injection Hp as <- <-.
  exists woe. split; [done|]. by apply Hzero.
Defined.

(** ** Degenerate targets *)

Lemma calc_perc_degenerate x y :
  1%Z ∉ y ∨ 0%Z ∉ y →
  ∃ e, calc_perc x y = inl e ∧
    (length x = length y → e = KeyError (KInt 1) ∨ e = KeyError (KInt 0)).
Proof.
  intros Hdeg. unfold calc_perc. case_decide as Hlen; [|by eexists].
  destruct (grouped_value_counts 1 x y) as [e1|c1] eqn:Hc1; cbn [bind_exn].
  { apply grouped_value_counts_inl in Hc1 as ->. eauto. }
  destruct (value_counts y !! 1%Z) as [n1|] eqn:Hn1; cbn [getitem bind_exn];
    [|by eauto].
  destruct Hdeg as [H1|H0].
  - apply value_counts_Some in Hn1 as (_ & _ & ?). done.
  - rewrite grouped_value_counts_absent by done. cbn [bind_exn]. eauto.
Qed.

Lemma fit_loop_degenerate feat rest X y self :
  1%Z ∉ y ∨ 0%Z ∉ y →
  ∃ e, fit_loop (feat :: rest) X y self = (self, Some e) ∧
    (∀ x, X !! feat = Some x → length x = length y →
       e = KeyError (KInt 1) ∨ e = KeyError (KInt 0)).
Proof.
  intros Hdeg. cbn [fit_loop].
  destruct (X !! feat) as [x|]; cbn [getitem bind_exn]; [|by eexists].
  destruct (calc_perc_degenerate x y Hdeg) as (e & -> & He).
  exists e. split; [done|]. by intros ? [= <-].
Qed.

(** C5 (as amended).  When the target has no row labelled 1 or no row
    labelled 0 and the encoder has at least one feature, [fit] raises in its
    first iteration and leaves the encoder exactly as it was, so nothing of
    a model is stored and an unfitted encoder stays unfitted.  The
    exception is the [KeyError] of the failed label lookup whenever the
    first feature is a column of [X] as long as the target. *)
Theorem fit_degenerate_target self X y :
  1%Z ∉ y ∨ 0%Z ∉ y → feats self ≠ [] →
  ∃ e, fit self X y = (self, Some e) ∧
    (∀ feat x, head (feats self) = Some feat → X !! feat = Some x →
       length x = length y → e = KeyError (KInt 1) ∨ e = KeyError (KInt 0)).
Proof.
  intros Hdeg Hne. unfold fit.
  destruct (feats self) as [|feat rest]; [done|].
  destruct (fit_loop_degenerate feat rest X y self Hdeg) as (e & -> & He).
  exists e. split; [done|]. intros ?? [= <-]. apply He.
Qed.

Lemma fit_degenerate_target_witness :
  (1%Z ∉ Sample.y_zeros ∨ 0%Z ∉ Sample.y_zeros)
  ∧ feats Sample.enc_city ≠ []
  ∧ ∃ e, fit Sample.enc_city Sample.X_two Sample.y_zeros
         = (Sample.enc_city, Some e)
         ∧ (e = KeyError (KInt 1) ∨ e = KeyError (KInt 0)).
Proof.
  assert (1%Z ∉ Sample.y_zeros ∨ 0%Z ∉ Sample.y_zeros) as Hdeg.
  { left. apply (bool_decide_unpack _). vm_compute. exact I. }
  assert (feats Sample.enc_city ≠ []) as Hne by (simpl; discriminate).
  split; [exact Hdeg|]. split; [exact Hne|].
  destruct (fit_degenerate_target Sample.enc_city Sample.X_two Sample.y_zeros
              Hdeg Hne) as (e & Hfit & He).
  exists e. split; [exact Hfit|].
  apply (He "city"%string [Some "A"; Some "B"]%string); reflexivity.
Defined.

(** C5 as stated fails for an encoder without feature: on a target without
    event, [fit] returns without exception and marks the encoder fitted. *)
Lemma fit_degenerate_no_feature :
  (1%Z ∉ Sample.y_zeros ∨ 0%Z ∉ Sample.y_zeros)
  ∧ fit Sample.enc_none ∅ Sample.y_zeros
    = (Encoder [] false None "woe_" "" ∅ ∅ true, None).
Proof.
  split; [|reflexivity].
  left. apply (bool_decide_unpack _). vm_compute. exact I.
Qed.

(** ** The unfitted guard *)

Lemma series_map_no_assert checked d na col msg :
  series_map checked d na col ≠ inl (AssertionError msg).
Proof. unfold series_map. by destruct (_ && _). Qed.

Lemma transform_loop_no_assert checked self fs X msg :
  transform_loop checked self fs X ≠ inl (AssertionError msg).
Proof.
  revert X. induction fs as [|feat rest IH]; intros X; cbn [transform_loop];
    [done|].
  destruct (X !! feat) as [col|]; cbn [getitem bind_exn]; [|done].
  destruct (transform_dict_woe self !! feat) as [d|]; cbn [getitem bind_exn];
    [|done].
  destruct (series_map checked d (fillna self) col) as [e|new_col] eqn:Hm;
    cbn [bind_exn]; [|apply IH].
  intros [= ->]. by apply series_map_no_assert in Hm.
Qed.

Lemma iv_loop_inr self fs :
  (∀ feat, feat ∈ fs → is_Some (transform_dict_iv self !! feat)) →
  iv_loop self fs =
    inr ((λ feat,
            (feat, series_sum (default ∅ (transform_dict_iv self !! feat))))
           <$> fs).
Proof.
  induction fs as [|feat rest IH]; intros Hall; cbn [iv_loop]; [done|].
  destruct (Hall feat) as [s Hs]; [by left|]. rewrite Hs. cbn [getitem bind_exn].
  rewrite IH. 2:{ intros f Hf. apply Hall. by right. }
  cbn [bind_exn]. by rewrite fmap_cons, Hs.
Qed.

Lemma information_values_inr self add_desc :
  is_fitted self = true →
  (∀ feat, feat ∈ feats self → is_Some (transform_dict_iv self !! feat)) →
  information_values self add_desc =
    inr ((λ feat,
            let iv := series_sum (default ∅ (transform_dict_iv self !! feat)) in
            IvRow feat iv (if add_desc then Some (add_description iv) else None))
           <$> feats self).
Proof.
  intros Hfit Hall. unfold information_values.
  rewrite Hfit, iv_loop_inr by done. cbn [bind_exn].
  by rewrite <-list_fmap_compose.
Qed.

(** After [fit], [information_values] returns one row per feature. *)
Lemma fit_information_values self X y self' add_desc :
  fit self X y = (self', None) →
  information_values self' add_desc =
    inr ((λ feat,
            let iv := series_sum (default ∅ (transform_dict_iv self' !! feat)) in
            IvRow feat iv (if add_desc then Some (add_description iv) else None))
           <$> feats self').
Proof.
  intros (Hfit & Hfeats & _ & Hstored)%fit_inr.
  apply information_values_inr; [done|].
  intros feat Hfeat. rewrite Hfeats in Hfeat.
  destruct (Hstored feat Hfeat) as (? & ? & ? & _ & _ & _ & ->). done.
Qed.

(** C4. On an encoder as [__init__] leaves it, [transofrm] and
    [information_values] raise the error of the unfitted guard (in the source
    an [AssertionError] with the message of the guard); after a [fit] that
    returned, neither of them raises it. *)
Theorem unfitted_guard :
  (∀ fs d fo p s checked X add_desc,
     transofrm checked (init fs d fo p s) X
       = inl (AssertionError "Fot the encoder first")
     ∧ information_values (init fs d fo p s) add_desc
       = inl (AssertionError "Fot the encoder first"))
  ∧ (∀ self X y self',
       fit self X y = (self', None) →
       (∀ checked X' msg, transofrm checked self' X' ≠ inl (AssertionError msg))
       ∧ (∀ add_desc msg,
            information_values self' add_desc ≠ inl (AssertionError msg))).
Proof.
  split; [done|]. intros self X y self' Hfit. split.
  - intros checked X' msg. unfold transofrm.
    destruct (fit_inr _ _ _ _ Hfit) as (-> & _).
    apply transform_loop_no_assert.
  - intros add_desc msg. by rewrite (fit_information_values _ _ _ _ _ Hfit).
Qed.

Lemma unfitted_guard_witness :
  fit Sample.enc_city Sample.X_city Sample.y_city = (Sample.fitted_city, None)
  ∧ transofrm false Sample.enc_city Sample.X_new
    = inl (AssertionError "Fot the encoder first")
  ∧ transofrm false Sample.fitted_city Sample.X_new
    ≠ inl (AssertionError "Fot the encoder first")
  ∧ information_values Sample.fitted_city true
    ≠ inl (AssertionError "Fot the encoder first").
Proof.
  assert (fit Sample.enc_city Sample.X_city Sample.y_city
          = (Sample.fitted_city, None)) as Hfit by (vm_compute; reflexivity).
  destruct unfitted_guard as [Hfresh Hfitted].
  destruct (Hfitted _ _ _ _ Hfit) as [Htr Hiv].
  split; [exact Hfit|]. split; [|split].
  - apply (Hfresh ["city"%string] false None "woe_"%string ""%string false
             Sample.X_new true).
  - apply Htr.
  - apply Hiv.
Defined.

(** ** Information values *)

Lemma sum_of_all_cells_insert (s : gmap string fl) k v :
  s !! k = None → sum_of_all_cells (<[k := v]> s) = fadd v (sum_of_all_cells s).
Proof.
  intros Hk. unfold sum_of_all_cells. rewrite map_fold_insert_L; [done | | done].
  intros ?? z1 z2 acc _ _ _. apply fadd_swap.
Qed.

(** Without [NaN] cell both sums agree. *)
Lemma sum_of_all_cells_defined (s : gmap string fl) :
  (∀ k, s !! k ≠ Some NaN) → sum_of_all_cells s = series_sum s.
Proof.
  induction s as [|k v s Hk IH] using map_ind; intros Hall; [done|].
  rewrite sum_of_all_cells_insert, series_sum_insert by done.
  rewrite IH.
  - destruct v; try done. by destruct (Hall k); rewrite lookup_insert_eq.
  - intros k' Hk'. apply (Hall k'). rewrite lookup_insert_ne; [done|].
    intros ->. congruence.
Qed.

(** One [NaN] cell makes the sum of all cells [NaN]. *)
Lemma sum_of_all_cells_nan (s : gmap string fl) k :
  s !! k = Some NaN → sum_of_all_cells s = NaN.
Proof.
  intros Hk. rewrite <-(insert_delete_id s k NaN) by done.
  by rewrite sum_of_all_cells_insert by apply lookup_delete_eq.
Qed.

(** [Series.sum()] of finite cells, [NaN] cells and cells holding one
    fill value is never [NaN]. *)
Lemma series_sum_one_fill (s : gmap string fl) v :
  (∀ k a, s !! k = Some a → (∃ r, a = Fin r) ∨ a = v) →
  (∃ r, series_sum s = Fin r) ∨ (series_sum s = v ∧ (v = PInf ∨ v = NInf)).
Proof.
  induction s as [|k a s Hk IH] using map_ind; intros Hall.
  - left. exists 0. apply series_sum_empty.
  - rewrite series_sum_insert by done.
    assert ((∃ r, series_sum s = Fin r)
            ∨ (series_sum s = v ∧ (v = PInf ∨ v = NInf))) as Hs.
    { apply IH. intros k' a' Ha'. apply (Hall k'). rewrite lookup_insert_ne; [done|].
      intros ->. congruence. }
    destruct (Hall k a) as [[r ->]| ->]; [apply lookup_insert_eq| |].
    + destruct Hs as [[r' ->]|[-> Hv]]; [left; by eexists|].
      right. destruct Hv as [-> | ->]; by split; [|auto].
    + destruct v as [| | |r]; simpl is_nan; cbv iota.
      * done.
      * right. destruct Hs as [[r' ->]|[-> _]]; by split; [|auto].
      * right. destruct Hs as [[r' ->]|[-> _]]; by split; [|auto].
      * destruct Hs as [[r' ->]|[_ [?|?]]]; [left; by eexists|done|done].
Qed.

Lemma series_sum_not_nan (s : gmap string fl) v :
  (∀ k a, s !! k = Some a → (∃ r, a = Fin r) ∨ a = v) → series_sum s ≠ NaN.
Proof.
  intros Hall. destruct (series_sum_one_fill s v Hall) as [[r ->]|[-> [-> | ->]]];
    done.
Qed.

(** C3 (as amended).  After [fit] has returned, the "Information Value"
    that [information_values] reports for a configured feature is the sum
    of the stored per-category contributions that are defined:
    [Series.sum()] leaves the undefined ([NaN]) ones out, so the value is
    never [NaN].  It is the sum over all the stored contributions when none
    of them is [NaN], which holds when a fill value other than [NaN] is
    configured.  Without fill value every category seen in one class only
    has a [NaN] contribution, and the sum over all the contributions is
    then [NaN], unlike the value reported. *)
Theorem information_values_sum self X y self' feat :
  fit self X y = (self', None) → feat ∈ feats self →
  ∃ x p_event p_non_event contributions,
    X !! feat = Some x ∧ calc_perc x y = inr (p_event, p_non_event) ∧
    contributions = (fit_feature (fillna self) p_event p_non_event).2 ∧
    transform_dict_iv self' !! feat = Some contributions ∧
    (fillna self = None → ∀ c, one_sided p_event p_non_event c →
       contributions !! c = Some NaN) ∧
    (∀ v, fillna self = Some v → v ≠ NaN → ∀ c, contributions !! c ≠ Some NaN) ∧
    ((∃ c, contributions !! c = Some NaN) →
       sum_of_all_cells contributions = NaN) ∧
    ∀ add_desc, ∃ X_iv,
      information_values self' add_desc = inr X_iv ∧
      (∃ row, row ∈ X_iv ∧ row_feat row = feat) ∧
      (∀ row, row ∈ X_iv → row_feat row = feat →
         row_information_value row = series_sum contributions ∧
         row_information_value row =
           foldr fadd (Fin 0)
             (filter (λ v, is_nan v = false) (map_to_list contributions).*2) ∧
         row_information_value row ≠ NaN ∧
         ((∀ c, contributions !! c ≠ Some NaN) →
            row_information_value row = sum_of_all_cells contributions)).
Proof.
  intros Hfit Hfeat.
  destruct (fit_inr _ _ _ _ Hfit) as (_ & Hfeats & _ & Hstored).
  destruct (Hstored feat Hfeat) as (x & pe & pn & Hx & Hp & _ & Hiv).
  exists x, pe, pn, (fit_feature (fillna self) pe pn).2.
  split_and!; try done.
  - intros Hnone c Hone. rewrite fit_feature_iv_lookup, Hnone.
    destruct Hone as [[[a Ha] Hb]|[Ha [b Hb]]]; rewrite Ha, Hb; simpl default.
    + by rewrite iv_cell_nan_l.
    + by rewrite iv_cell_nan_r.
  - intros v Hv Hnan c Hc.
    destruct (fit_feature_iv_cases _ _ _ _ _ _ _ Hp Hc) as [(? & ? & _ & _ & _ & _ & ?)|[_ Hd]];
      [done|]. rewrite Hv in Hd. simpl in Hd. congruence.
  - intros [c Hc]. by apply (sum_of_all_cells_nan _ c).
  - intros add_desc.
    eexists. split; [by apply (fit_information_values _ _ _ _ _ Hfit)|].
    rewrite Hfeats. split.
    + eexists. split; [apply list_elem_of_fmap; by exists feat|done].
    + intros row (f & -> & Hf)%list_elem_of_fmap. simpl. intros ->.
      rewrite Hiv. simpl. split_and!; [done | apply series_sum_defined | |].
      * apply (series_sum_not_nan _ (default NaN (fillna self))).
        intros c a Ha.
        destruct (fit_feature_iv_cases _ _ _ _ _ _ _ Hp Ha)
          as [(? & ? & _ & _ & _ & _ & ->)|[_ ->]]; eauto.
      * intros Hall. by rewrite sum_of_all_cells_defined.
Qed.

Lemma fit_fill :
  fit Sample.enc_fill Sample.X_city Sample.y_city = (Sample.fitted_fill, None).
Proof. vm_compute. reflexivity. Qed.

Lemma one_sided_city_B :
  one_sided Sample.p_event_city Sample.p_non_event_city "B".
Proof. right. split; [vm_compute; reflexivity|]. eexists. vm_compute. reflexivity. Qed.

Lemma information_values_sum_witness :
  (fit Sample.enc_city Sample.X_city Sample.y_city = (Sample.fitted_city, None)
   ∧ "city"%string ∈ feats Sample.enc_city
   ∧ ∃ contributions X_iv,
       transform_dict_iv Sample.fitted_city !! "city"%string = Some contributions
       ∧ contributions !! "B"%string = Some NaN
       ∧ sum_of_all_cells contributions = NaN
       ∧ information_values Sample.fitted_city true = inr X_iv
       ∧ ∀ row, row ∈ X_iv → row_feat row = "city"%string →
           row_information_value row = series_sum contributions
           ∧ row_information_value row ≠ NaN)
  ∧ (fit Sample.enc_fill Sample.X_city Sample.y_city = (Sample.fitted_fill, None)
     ∧ ∃ contributions X_iv,
         transform_dict_iv Sample.fitted_fill !! "city"%string = Some contributions
         ∧ information_values Sample.fitted_fill true = inr X_iv
         ∧ ∀ row, row ∈ X_iv → row_feat row = "city"%string →
             row_information_value row = sum_of_all_cells contributions).
Proof.
  assert ("city"%string ∈ feats Sample.enc_city) as Hin by left.
  assert ("city"%string ∈ feats Sample.enc_fill) as Hin' by left.
  split.
  - split; [exact fit_city|]. split; [exact Hin|].
    destruct (information_values_sum _ _ _ _ _ fit_city Hin)
      as (x & pe & pn & contributions & Hx & Hp & _ & Hiv & Hnan & _ & Hall
          & Hrows).
    apply lookup_X_city in Hx as ->.
    rewrite calc_perc_city in Hp. injection Hp as <- <-.
    destruct (Hrows true) as (X_iv & Hval & _ & Hsum).
    pose proof (Hnan eq_refl "B"%string one_sided_city_B) as HB.
    exists contributions, X_iv. split_and!; [done | done | | done |].
    + apply Hall. by exists "B"%string.
    + intros row Hrow Hfeat. destruct (Hsum row Hrow Hfeat) as (? & _ & ? & _). done.
  - split; [exact fit_fill|].
    destruct (information_values_sum _ _ _ _ _ fit_fill Hin')
      as (x & pe & pn & contributions & Hx & Hp & _ & Hiv & _ & Hfilled & _
          & Hrows).
    destruct (Hrows true) as (X_iv & Hval & _ & Hsum).
    exists contributions, X_iv. split_and!; [done | done |].
    intros row Hrow Hfeat. destruct (Hsum row Hrow Hfeat) as (_ & _ & _ & Hall).
    apply Hall. by apply (Hfilled (Fin 0)).
Defined.

(** C3 as stated fails when no fill value is configured and a category is
    seen in one class only: on the sample, city B has no event row, its
    stored contribution is [NaN], the sum over all the stored contributions
    is [NaN], and the value reported is a finite number. *)
Lemma information_values_undefined_left_out :
  fit Sample.enc_city Sample.X_city Sample.y_city = (Sample.fitted_city, None)
  ∧ ∃ contributions v,
      transform_dict_iv Sample.fitted_city !! "city"%string = Some contributions
      ∧ contributions !! "B"%string = Some NaN
      ∧ sum_of_all_cells contributions = NaN
      ∧ information_values Sample.fitted_city false = inr [IvRow "city" v None]
      ∧ (∃ r, v = Fin r)
      ∧ v ≠ sum_of_all_cells contributions.
Proof.
  split; [exact fit_city|].
  set (contributions :=
         (fit_feature None Sample.p_event_city Sample.p_non_event_city).2).
  assert (contributions !! "B"%string = Some NaN) as HB.
  { unfold contributions. rewrite fit_feature_iv_lookup.
    destruct one_sided_city_B as [[[a Ha] Hb]|[Ha [b Hb]]]; rewrite Ha, Hb;
      simpl default; [by rewrite iv_cell_nan_l | by rewrite iv_cell_nan_r]. }
  assert (sum_of_all_cells contributions = NaN) as Hall
    by (by apply (sum_of_all_cells_nan _ "B")).
  assert (∃ r, series_sum contributions = Fin r) as [r Hr].
  { destruct (series_sum_one_fill contributions NaN) as [?|[_ [?|?]]]; [|done..].
    intros c a Ha.
    destruct (fit_feature_iv_cases _ _ _ _ _ _ _ calc_perc_city Ha)
      as [(? & ? & _ & _ & _ & _ & ->)|[_ ->]]; eauto. }
  exists contributions, (series_sum contributions).
  split_and!; [vm_compute; reflexivity | done | done | vm_compute; reflexivity
              | by exists r | by rewrite Hall, Hr].
Qed.

(** ** Column names *)

Lemma append_cons a (s1 s2 : string) :
  String a s1 +:+ s2 = String a (s1 +:+ s2).
Proof. done. Qed.


Lemma append_length (s1 s2 : string) :
  String.length (s1 +:+ s2) = (String.length s1 + String.length s2)%nat.
Proof.
  induction s1 as [|a s1 IH]; [done|]. rewrite append_cons. simpl. by rewrite IH.
Qed.

Lemma append_inj_r (s s1 s2 : string) : s1 +:+ s = s2 +:+ s → s1 = s2.
Proof.
  revert s2. induction s1 as [|a s1 IH]; intros [|b s2] Heq; [done| | |].
  - apply (f_equal String.length) in Heq.
    rewrite !append_length in Heq. simpl in Heq. lia.
  - apply (f_equal String.length) in Heq.
    rewrite !append_length in Heq. simpl in Heq. lia.
  - rewrite !append_cons in Heq. injection Heq as -> Heq. f_equal. by apply IH.
Qed.


(** Two features never share the name of their new column. *)
Lemma new_col_name_inj self f1 f2 :
  new_col_name self f1 = new_col_name self f2 → f1 = f2.
Proof.
  unfold new_col_name. intros Heq%append_inj_r. by apply (inj _) in Heq.
Qed.


(** ** The loop of [transofrm] *)

Lemma transform_loop_cons_inr checked self feat rest X X' :
  transform_loop checked self (feat :: rest) X = inr X' →
  ∃ col d new_col,
    X !! feat = Some col ∧ transform_dict_woe self !! feat = Some d ∧
    series_map checked d (fillna self) col = inr new_col ∧
    transform_loop checked self rest (write_column self feat new_col X) = inr X'.
Proof.
  cbn [transform_loop].
  destruct (X !! feat) as [col|]; cbn [getitem bind_exn]; [|done].
  destruct (transform_dict_woe self !! feat) as [d|]; cbn [getitem bind_exn];
    [|done].
  destruct (series_map checked d (fillna self) col) as [e|new_col] eqn:Hm;
    cbn [bind_exn]; [done|].
  intros Hrest. by exists col, d, new_col.
Qed.

(** Whatever [na_action] is, a [Series.map] that returns has looked each
    cell up and put [NaN] where there is no entry. *)
Lemma series_map_inr checked d na col new_col :
  series_map checked d na col = inr new_col →
  new_col = match col with
            | CatCol cells => (λ c, default NaN (c ≫= (d !!.))) <$> cells
            | NumCol cells => (λ _, NaN) <$> cells
            end.
Proof. unfold series_map. destruct (_ && _); congruence. Qed.

Lemma write_column_lookup self feat new_col X name :
  write_column self feat new_col X !! name =
    if decide (name = feat ∧ dropping self = true) then None
    else if decide (name = new_col_name self feat) then Some (NumCol new_col)
    else X !! name.
Proof.
  unfold write_column, dropping. cbv zeta. destruct (_ && _) eqn:Hd.
  - destruct (decide (name = feat)) as [->|Hne].
    + rewrite lookup_delete_eq. by rewrite decide_True.
    + rewrite lookup_delete_ne by done. rewrite decide_False by tauto.
      destruct (decide (name = new_col_name self feat)) as [->|Hn];
        [by rewrite lookup_insert_eq|].
      by rewrite lookup_insert_ne.
  - rewrite decide_False by (intros [_ ?]; done).
    destruct (decide (name = new_col_name self feat)) as [->|Hn];
      [by rewrite lookup_insert_eq|].
    by rewrite lookup_insert_ne.
Qed.

Lemma series_map_encode checked d na col new_col :
  series_map checked d na col = inr new_col → new_col = encode_column d col.
Proof. apply series_map_inr. Qed.

Lemma series_map_lenient checked d na col :
  checked = false ∨ na = None →
  series_map checked d na col = inr (encode_column d col).
Proof.
  intros [-> | ->]; unfold series_map; [done|].
  by rewrite bool_decide_eq_false_2, andb_false_r by (by intros [? ?]).
Qed.

(** A loop that finds every column and every table returns. *)
Lemma transform_loop_returns checked self fs X :
  (∀ f, f ∈ fs → is_Some (transform_dict_woe self !! f)) →
  checked = false ∨ fillna self = None →
  dropping self = false ∨ NoDup fs →
  (∀ f, f ∈ fs → is_Some (X !! f)) →
  ∃ X', transform_loop checked self fs X = inr X'.
Proof.
  intros Hwoe Hna Hdrop. revert X.
  induction fs as [|feat rest IH]; intros X Hcols; [by eexists|].
  cbn [transform_loop].
  destruct (Hcols feat) as [col ->]; [by left|].
  destruct (Hwoe feat) as [d ->]; [by left|]. cbn [getitem bind_exn].
  rewrite series_map_lenient by done. cbn [bind_exn].
  apply IH.
  - intros f Hf. apply Hwoe. by right.
  - destruct Hdrop as [?|Hnd]; [by left|]. right. by apply NoDup_cons in Hnd as [_ ?].
  - intros f Hf. rewrite write_column_lookup.
    destruct (decide (f = feat ∧ dropping self = true)) as [[-> Hd]|_].
    + destruct Hdrop as [?|Hnd]; [congruence|].
      by apply NoDup_cons in Hnd as [? _].
    + case_decide; [done|]. apply Hcols. by right.
Qed.

Section transform_invariant.
Variables (checked : bool) (self : encoder) (X : gmap string column).






End transform_invariant.

(** ** Unseen categories *)






(** ** Dropping with an empty naming delta *)














(* ===================================================================== *)
(** * Further properties                                                  *)
(* ===================================================================== *)


Lemma elem_of_group_feat t x y k :
  k ∈ group_feat t x y ↔ ∃ i, x !! i = Some (Some k) ∧ y !! i = Some t.
Proof.
  revert y. induction x as [|c x IH]; intros [|l y].
  - split; [by intros ?%elem_of_nil | by intros (i & ? & _)].
  - split; [by intros ?%elem_of_nil | by intros (i & ? & _)].
  - split; [by intros ?%elem_of_nil | by intros (i & _ & ?)].
  - rewrite group_feat_cons. split.
    + intros Hin.
      assert (k ∈ group_feat t x y ∨ (l = t ∧ c = Some k)) as [Hk|[-> ->]].
      { destruct (decide (l = t)) as [->|]; [destruct c as [k'|]|]; auto.
        apply elem_of_cons in Hin as [->|]; auto. }
      * apply IH in Hk as (i & ? & ?). by exists (S i).
      * by exists 0%nat.
    + intros ([|i] & Hx & Hy); simpl in *.
      * injection Hx as ->. injection Hy as ->. rewrite decide_True by done. left.
      * assert (k ∈ group_feat t x y) by (apply IH; eauto).
        destruct (decide (l = t)); [destruct c|]; [by right|done..].
Qed.

Lemma group_feat_nonempty t x y : group_feat t x y ≠ [] ↔ has_row t x y.
Proof.
  unfold has_row. split.
  - destruct (group_feat t x y) as [|k l] eqn:Hg; [done|]. intros _.
    assert (k ∈ group_feat t x y) as Hk by (rewrite Hg; left).
    apply elem_of_group_feat in Hk as (i & ? & ?). eauto.
  - intros (i & k & Hx & Hy) Hnil.
    assert (k ∈ group_feat t x y) as Hk by (apply elem_of_group_feat; eauto).
    rewrite Hnil in Hk. by apply elem_of_nil in Hk.
Qed.

Lemma grouped_value_counts_has_row t x y :
  has_row t x y →
  grouped_value_counts t x y = inr (value_counts (group_feat t x y)).
Proof.
  intros Hrow%group_feat_nonempty. unfold grouped_value_counts.
  case_decide as Hc; [|done]. destruct (group_feat t x y); [done|].
  simpl in Hc. by apply insert_non_empty in Hc.
Qed.

Lemma grouped_value_counts_no_row t x y :
  ¬ has_row t x y → grouped_value_counts t x y = inl (KeyError (KInt t)).
Proof.
  intros Hrow. unfold grouped_value_counts.
  destruct (decide (group_feat t x y = [])) as [->|Hne]; [done|].
  by apply group_feat_nonempty in Hne.
Qed.

Lemma has_row_label t x y : has_row t x y → is_Some (value_counts y !! t).
Proof.
  intros (i & k & _ & Hy). apply not_eq_None_Some. intros Hnone.
  apply value_counts_None in Hnone. apply Hnone. by eapply list_elem_of_lookup_2.
Qed.

(** X1. The outcome of [__calc_perc] is decided by three facts: it raises
    [ValueError] when column and target differ in length; otherwise
    [KeyError(1)] when no event row has a category; otherwise [KeyError(0)]
    when no non-event row has a category; and it returns in every other
    case. *)
Theorem calc_perc_outcome x y :
  (length x ≠ length y → calc_perc x y = inl ValueError)
  ∧ (length x = length y → ¬ has_row 1 x y →
       calc_perc x y = inl (KeyError (KInt 1)))
  ∧ (length x = length y → has_row 1 x y → ¬ has_row 0 x y →
       calc_perc x y = inl (KeyError (KInt 0)))
  ∧ (length x = length y → has_row 1 x y → has_row 0 x y →
       ∃ p_event p_non_event, calc_perc x y = inr (p_event, p_non_event)).
Proof.
  unfold calc_perc. split_and!.
  - intros Hlen. by rewrite decide_False.
  - intros Hlen H1. rewrite decide_True by done.
    by rewrite grouped_value_counts_no_row.
  - intros Hlen H1 H0. rewrite decide_True by done.
    rewrite grouped_value_counts_has_row by done. cbn [bind_exn].
    destruct (has_row_label _ _ _ H1) as [n1 ->]. cbn [getitem bind_exn].
    by rewrite grouped_value_counts_no_row.
  - intros Hlen H1 H0. rewrite decide_True by done.
    rewrite !grouped_value_counts_has_row by done. cbn [bind_exn].
    destruct (has_row_label _ _ _ H1) as [n1 ->].
    destruct (has_row_label _ _ _ H0) as [n0 ->]. cbn [getitem bind_exn].
    eauto.
Qed.

Lemma occurrences_group_feat t x y k :
  occurrences k (group_feat t x y) = occurrences (Some k, t) (zip x y).
Proof.
  unfold occurrences. revert y. induction x as [|c x IH]; intros [|l y]; try done.
  rewrite group_feat_cons. cbn [zip zip_with]. rewrite filter_cons.
  specialize (IH y).
  destruct (decide (l = t)) as [->|Hl].
  - destruct c as [k'|].
    + rewrite filter_cons. destruct (decide (k' = k)) as [->|Hk].
      * rewrite decide_True by done. simpl. by rewrite IH.
      * rewrite decide_False by congruence. done.
    + rewrite decide_False by congruence. done.
  - rewrite decide_False by congruence. done.
Qed.

Lemma div_scalar_lookup (counts : gmap string nat) n k :
  (0 < n)%nat →
  div_scalar counts n !! k = (λ c, Fin (INR c / INR n)) <$> counts !! k.
Proof.
  intros Hn%lt_0_INR. unfold div_scalar. rewrite lookup_fmap.
  destruct (counts !! k); [|done]. cbn [fmap option_fmap option_map].
  by rewrite fdiv_fin_pos.
Qed.

Lemma value_counts_lookup `{Countable K} (l : list K) k :
  value_counts l !! k =
    if decide (occurrences k l = 0%nat) then None else Some (occurrences k l).
Proof.
  destruct (value_counts l !! k) as [n|] eqn:Hk.
  - apply value_counts_Some in Hk as (-> & ? & _). rewrite decide_False by lia. done.
  - pose proof (value_counts_default l k) as Hd. rewrite Hk in Hd. simpl in Hd.
    by rewrite decide_True.
Qed.

(** X2. When [__calc_perc] returns, a category has an event proportion
    exactly when some event row carries it, and the proportion is the
    number of event rows with that category over the number of all event
    rows, rows with a missing category included; likewise for non-events. *)
Theorem calc_perc_formula x y p_event p_non_event :
  calc_perc x y = inr (p_event, p_non_event) →
  ∀ c,
    (∀ v, p_event !! c = Some v ↔
       (0 < occurrences (Some c, 1%Z) (zip x y))%nat
       ∧ v = Fin (INR (occurrences (Some c, 1%Z) (zip x y))
                  / INR (occurrences 1%Z y)))
    ∧ (∀ v, p_non_event !! c = Some v ↔
         (0 < occurrences (Some c, 0%Z) (zip x y))%nat
         ∧ v = Fin (INR (occurrences (Some c, 0%Z) (zip x y))
                    / INR (occurrences 0%Z y))).
Proof.
  intros (_ & n1 & n0 & Hn1 & Hn0 & -> & ->)%calc_perc_inr c.
  apply value_counts_Some in Hn1 as (-> & Hpos1 & _), Hn0 as (-> & Hpos0 & _).
  split; intros v; rewrite div_scalar_lookup, value_counts_lookup,
    occurrences_group_feat by done.
  all: case_decide as Hocc; cbn [fmap option_fmap option_map].
  all: split; [intros [= <-] | intros [? ->]]; try done; try lia.
  all: split; [lia | done].
Qed.


(** ** Keys and values of the fitted tables *)

Lemma div_scalar_is_Some (counts : gmap string nat) n k :
  is_Some (div_scalar counts n !! k) ↔ is_Some (counts !! k).
Proof. unfold div_scalar. by rewrite lookup_fmap, fmap_is_Some. Qed.

Lemma value_counts_is_Some `{Countable K} (l : list K) k :
  is_Some (value_counts l !! k) ↔ k ∈ l.
Proof.
  rewrite <-not_eq_None_Some, value_counts_None.
  split; [apply dec_stable | by intros ??].
Qed.

Lemma calc_perc_keys x y pe pn c :
  calc_perc x y = inr (pe, pn) →
  (is_Some (pe !! c) ↔ ∃ i, x !! i = Some (Some c) ∧ y !! i = Some 1%Z)
  ∧ (is_Some (pn !! c) ↔ ∃ i, x !! i = Some (Some c) ∧ y !! i = Some 0%Z).
Proof.
  intros (_ & n1 & n0 & _ & _ & -> & ->)%calc_perc_inr.
  by rewrite !div_scalar_is_Some, !value_counts_is_Some, !elem_of_group_feat.
Qed.

Lemma fit_feature_woe_is_Some fo (pe pn : gmap string fl) c :
  is_Some ((fit_feature fo pe pn).1 !! c) ↔ is_Some (pe !! c) ∨ is_Some (pn !! c).
Proof.
  rewrite fit_feature_woe_lookup.
  destruct (pn !! c), (pe !! c); split; intros; eauto; by destruct_or?; destruct_and?;
    match goal with H : is_Some None |- _ => destruct H as [? [=]] end.
Qed.

Lemma fit_feature_iv_is_Some fo (pe pn : gmap string fl) c :
  is_Some ((fit_feature fo pe pn).2 !! c) ↔ is_Some (pe !! c) ∨ is_Some (pn !! c).
Proof.
  rewrite fit_feature_iv_lookup.
  destruct (pn !! c), (pe !! c); split; intros; eauto; by destruct_or?; destruct_and?;
    match goal with H : is_Some None |- _ => destruct H as [? [=]] end.
Qed.




(** X3. After [fit] has returned, the WoE table of a feature has an entry
    exactly for the categories that occur in a row labelled 1 or 0, the IV
    table has the same keys, and every stored WoE is a finite number. *)
Theorem fit_table_keys self X y self' feat :
  fit self X y = (self', None) → feat ∈ feats self →
  ∃ x woe iv,
    X !! feat = Some x ∧
    transform_dict_woe self' !! feat = Some woe ∧
    transform_dict_iv self' !! feat = Some iv ∧
    (∀ c, is_Some (woe !! c) ↔
          ∃ i t, x !! i = Some (Some c) ∧ y !! i = Some t ∧ (t = 1 ∨ t = 0)%Z) ∧
    dom iv = dom woe ∧
    (∀ c w, woe !! c = Some w → ∃ r, w = Fin r).
Proof.
  intros Hfit Hfeat.
  destruct (fit_inr _ _ _ _ Hfit) as (_ & _ & _ & Hstored).
  destruct (Hstored feat Hfeat) as (x & pe & pn & Hx & Hp & Hwoe & Hiv).
  exists x, (fit_feature (fillna self) pe pn).1, (fit_feature (fillna self) pe pn).2.
  split_and!; try done.
  - intros c. rewrite fit_feature_woe_is_Some.
    destruct (calc_perc_keys _ _ _ _ c Hp) as [-> ->]. split.
    + intros [(i & ? & ?)|(i & ? & ?)]; exists i; eauto.
    + intros (i & t & ? & ? & [->| ->]); eauto.
  - apply set_eq. intros c.
    by rewrite !elem_of_dom, fit_feature_woe_is_Some, fit_feature_iv_is_Some.
  - intros c w Hw.
    destruct (fit_feature_woe_cases _ _ _ _ _ _ _ Hp Hw)
      as [(? & ? & _ & _ & _ & _ & ->)|[_ ->]]; eauto.
Qed.

(** ** Signs *)

Lemma ln_pos_iff r : 0 < r → (0 < ln r ↔ 1 < r).
Proof.
  intros Hr. rewrite <-ln_1. split.
  - apply ln_lt_inv; lra.
  - apply ln_increasing; lra.
Qed.

Lemma ln_neg_iff r : 0 < r → (ln r < 0 ↔ r < 1).
Proof.
  intros Hr. rewrite <-ln_1. split.
  - apply ln_lt_inv; lra.
  - by apply ln_increasing.
Qed.

Lemma ratio_gt_1 ra rb : 0 < ra → (1 < rb / ra ↔ ra < rb).
Proof.
  intros Ha. split; intros H.
  - apply (Rmult_lt_compat_r ra) in H; [|done].
    replace (rb / ra * ra) with rb in H by (field; lra). lra.
  - apply (Rmult_lt_reg_r ra); [done|].
    replace (rb / ra * ra) with rb by (field; lra). lra.
Qed.

Lemma ratio_lt_1 ra rb : 0 < ra → (rb / ra < 1 ↔ rb < ra).
Proof.
  intros Ha. split; intros H.
  - apply (Rmult_lt_compat_r ra) in H; [|done].
    replace (rb / ra * ra) with rb in H by (field; lra). lra.
  - apply (Rmult_lt_reg_r ra); [done|].
    replace (rb / ra * ra) with rb by (field; lra). lra.
Qed.

Lemma woe_sign ra rb :
  0 < ra → 0 < rb →
  (0 < ln (rb / ra) ↔ ra < rb) ∧ (ln (rb / ra) < 0 ↔ rb < ra)
  ∧ (ln (rb / ra) = 0 ↔ ra = rb).
Proof.
  intros Ha Hb. assert (0 < rb / ra) as Hq by (by apply Rdiv_lt_0_compat).
  pose proof (ln_pos_iff _ Hq) as Hpos. pose proof (ln_neg_iff _ Hq) as Hneg.
  rewrite ratio_gt_1 in Hpos by done. rewrite ratio_lt_1 in Hneg by done.
  split_and!; [done | done |]. split.
  - intros Hz. destruct (Rtotal_order ra rb) as [?|[?|?]]; [|done|].
    + apply Hpos in H. lra.
    + apply Hneg in H. lra.
  - intros ->. replace (rb / rb) with 1 by (field; lra). apply ln_1.
Qed.


(** X5. For a category seen in both classes the stored WoE is positive
    exactly when its non-event proportion exceeds its event proportion,
    negative exactly when it is smaller, and zero exactly when both are
    equal. *)
Theorem fit_woe_sign self X y self' feat :
  fit self X y = (self', None) → feat ∈ feats self →
  ∃ x p_event p_non_event woe,
    X !! feat = Some x ∧ calc_perc x y = inr (p_event, p_non_event) ∧
    transform_dict_woe self' !! feat = Some woe ∧
    ∀ c ra rb, p_event !! c = Some (Fin ra) → p_non_event !! c = Some (Fin rb) →
      ∃ r, woe !! c = Some (Fin r)
           ∧ (0 < r ↔ ra < rb) ∧ (r < 0 ↔ rb < ra) ∧ (r = 0 ↔ ra = rb).
Proof.
  intros Hfit Hfeat.
  destruct (fit_inr _ _ _ _ Hfit) as (_ & _ & _ & Hstored).
  destruct (Hstored feat Hfeat) as (x & pe & pn & Hx & Hp & Hwoe & Hiv).
  exists x, pe, pn, (fit_feature (fillna self) pe pn).1.
  split_and!; try done. intros c ra rb Ha Hb.
  destruct (calc_perc_fin _ _ _ _ c _ Hp (or_introl Ha)) as (? & [= <-] & Hra).
  destruct (calc_perc_fin _ _ _ _ c _ Hp (or_intror Hb)) as (? & [= <-] & Hrb).
  exists (ln (rb / ra)). split; [|by apply woe_sign].
  rewrite fit_feature_woe_lookup, Ha, Hb. simpl default.
  by rewrite woe_cell_fin.
Qed.

(** ** The information value is not negative *)




(** ** What [fit] leaves alone *)

Lemma fit_loop_untouched fs X y self self' r :
  fit_loop fs X y self = (self', r) →
  ∀ feat, feat ∉ fs →
    transform_dict_woe self' !! feat = transform_dict_woe self !! feat ∧
    transform_dict_iv self' !! feat = transform_dict_iv self !! feat.
Proof.
  revert self. induction fs as [|f rest IH]; intros self; cbn [fit_loop].
  - by intros [= <- _].
  - destruct (bind_exn _ _) as [e|[pe pn]]; [by intros [= <- _]|].
    destruct (fit_feature (fillna self) pe pn) as [woe iv].
    intros Hrest feat [Hne Hr]%not_elem_of_cons.
    destruct (IH _ Hrest feat Hr) as [-> ->].
    cbn [store transform_dict_woe transform_dict_iv].
    by rewrite !lookup_insert_ne.
Qed.

(** X6. Whether it returns or raises, [fit] changes none of the
    constructor's settings and no table of a feature outside [feats]; it
    sets [is_fitted] when it returns, and leaves it as it was when it
    raises. *)
Theorem fit_keeps_configuration self X y self' r :
  fit self X y = (self', r) →
  feats self' = feats self ∧ drop_original self' = drop_original self ∧
  fillna self' = fillna self ∧ prefix self' = prefix self ∧
  suffix self' = suffix self ∧
  is_fitted self' = (if r is None then true else is_fitted self) ∧
  ∀ feat, feat ∉ feats self →
    transform_dict_woe self' !! feat = transform_dict_woe self !! feat ∧
    transform_dict_iv self' !! feat = transform_dict_iv self !! feat.
Proof.
  unfold fit. destruct (fit_loop _ _ _ _) as [s o] eqn:Hloop.
  destruct (fit_loop_config _ _ _ _ _ _ Hloop) as (? & ? & ? & ? & ? & ?).
  pose proof (fit_loop_untouched _ _ _ _ _ _ Hloop) as Hout.
  destruct o as [e|]; intros [= <- <-]; by split_and!.
Qed.

(** ** Fitting again *)

Lemma store_id self feat woe iv :
  transform_dict_woe self !! feat = Some woe →
  transform_dict_iv self !! feat = Some iv →
  store self feat woe iv = self.
Proof.
  intros Hw Hi. unfold store. rewrite !insert_id by done. by destruct self.
Qed.

Lemma fit_loop_again fs X y self :
  (∀ feat, feat ∈ fs →
     ∃ x pe pn, X !! feat = Some x ∧ calc_perc x y = inr (pe, pn) ∧
       transform_dict_woe self !! feat = Some (fit_feature (fillna self) pe pn).1 ∧
       transform_dict_iv self !! feat = Some (fit_feature (fillna self) pe pn).2) →
  fit_loop fs X y self = (self, None).
Proof.
  induction fs as [|f rest IH]; intros Hall; cbn [fit_loop]; [done|].
  destruct (Hall f) as (x & pe & pn & -> & Hp & Hw & Hi); [by left|].
  cbn [getitem bind_exn]. rewrite Hp.
  destruct (fit_feature (fillna self) pe pn) as [woe iv].
  rewrite store_id by done. apply IH. intros feat Hfeat. apply Hall. by right.
Qed.

(** X7. Fitting a second time on the same data returns and leaves the
    fitted encoder unchanged. *)
Theorem fit_again self X y self' :
  fit self X y = (self', None) → fit self' X y = (self', None).
Proof.
  intros Hfit. destruct (fit_inr _ _ _ _ Hfit) as (Hfitted & Hfeats & Hfill & Hstored).
  unfold fit. rewrite fit_loop_again.
  - unfold set_fitted. rewrite <-Hfitted. by destruct self'.
  - intros feat Hfeat. rewrite Hfeats in Hfeat. rewrite Hfill. by apply Hstored.
Qed.





(** ** Columns that [transofrm] does not write *)

Lemma transform_loop_other_columns checked self fs X X' name :
  transform_loop checked self fs X = inr X' →
  (∀ f, f ∈ fs → name ≠ new_col_name self f) →
  X' !! name = if dropping self && bool_decide (name ∈ fs) then None
               else X !! name.
Proof.
  revert X. induction fs as [|feat rest IH]; intros X.
  - intros [= <-] _. by rewrite andb_false_r.
  - intros (col & d & new_col & Hcol & Hd & Hm & Hrest)%transform_loop_cons_inr
      Hname.
    rewrite (IH _ Hrest) by (intros f Hf; apply Hname; by right).
    rewrite write_column_lookup.
    rewrite (decide_False (P := name = new_col_name self feat))
      by (apply Hname; by left).
    destruct (dropping self) eqn:Hdrop; simpl; [|by rewrite decide_False by (by intros [_ ?])].
    destruct (decide (name = feat)) as [->|Hne].
    + rewrite (bool_decide_eq_true_2 (feat ∈ feat :: rest)) by left.
      rewrite decide_True by done. by destruct (bool_decide _).
    + rewrite decide_False by tauto.
      destruct (decide (name ∈ rest)) as [Hin|Hnot].
      * rewrite !bool_decide_eq_true_2; [done | by right | done].
      * rewrite !bool_decide_eq_false_2; [done | | done].
        by intros [?|?]%elem_of_cons.
Qed.

(** X10. In a table returned by [transofrm], a column whose name is not
    the new column of any feature is the caller's column unchanged, except
    that the column of a feature is gone when [drop_original] is set and
    the naming delta is not empty. *)
Theorem transofrm_other_columns checked self X X' name :
  transofrm checked self X = inr X' →
  (∀ f, f ∈ feats self → name ≠ new_col_name self f) →
  X' !! name = if dropping self && bool_decide (name ∈ feats self) then None
               else X !! name.
Proof.
  unfold transofrm. destruct (is_fitted self); [|done].
  apply transform_loop_other_columns.
Qed.

(** ** When [transofrm] returns *)


(** With no collision the column read for a feature is the caller's, and
    the columns written stay as written. *)
Lemma transform_loop_encoded checked self (X : gmap string column)
    (fs finished : list string) (Xc X' : gmap string column) :
  no_collision self →
  (∀ f, f ∈ fs → f ∈ feats self) → (∀ f, f ∈ finished → f ∈ feats self) →
  (∀ f col, f ∈ feats self → Xc !! f = Some col → X !! f = Some col) →
  (∀ f, f ∈ finished →
     ∃ col d, X !! f = Some col ∧ transform_dict_woe self !! f = Some d ∧
       Xc !! new_col_name self f = Some (NumCol (encode_column d col))) →
  transform_loop checked self fs Xc = inr X' →
  ∀ f, f ∈ fs ∨ f ∈ finished →
    ∃ col d, X !! f = Some col ∧ transform_dict_woe self !! f = Some d ∧
      X' !! new_col_name self f = Some (NumCol (encode_column d col)).
Proof.
  intros Hnc. revert finished Xc.
  induction fs as [|feat rest IH]; intros finished Xc Hfs Hfin Horig Hdone.
  - intros [= <-] f [?%elem_of_nil|Hf]; [done|]. by apply Hdone.
  - intros (col & d & new_col & Hcol & Hd & Hm & Hrest)%transform_loop_cons_inr f Hf.
    apply series_map_encode in Hm as ->.
    assert (feat ∈ feats self) as Hfeat by (apply Hfs; left).
    assert (X !! feat = Some col) as HX by (by apply Horig).
    apply (IH (feat :: finished) _) with (f := f) in Hrest; [done|..].
    + intros f' Hf'. apply Hfs. by right.
    + intros f' [->|?]%elem_of_cons; [done|by apply Hfin].
    + intros f' col' Hf' Hcol'. rewrite write_column_lookup in Hcol'.
      case_decide; [done|]. rewrite decide_False in Hcol'; [by apply Horig|].
      intros ->. exact (Hnc feat _ Hfeat Hf' eq_refl).
    + intros f' Hf'. rewrite write_column_lookup.
      rewrite decide_False.
      2:{ intros [Heq _]. apply (Hnc f' feat); [|done|done].
          apply elem_of_cons in Hf' as [->|?]; [done|by apply Hfin]. }
      destruct (decide (new_col_name self f' = new_col_name self feat)) as [Heq|Hne].
      * apply new_col_name_inj in Heq as ->. by exists col, d.
      * apply elem_of_cons in Hf' as [->|Hf']; [done|]. by apply Hdone.
    + rewrite elem_of_cons. destruct Hf as [[->|?]%elem_of_cons|?]; auto.
Qed.

Lemma transofrm_encoded checked self X X' feat :
  transofrm checked self X = inr X' → no_collision self → feat ∈ feats self →
  ∃ col d, X !! feat = Some col ∧ transform_dict_woe self !! feat = Some d ∧
    X' !! new_col_name self feat = Some (NumCol (encode_column d col)).
Proof.
  unfold transofrm. destruct (is_fitted self); [|done]. intros Hloop Hnc Hfeat.
  apply (transform_loop_encoded _ _ X _ [] _ _ Hnc) with (f := feat) in Hloop;
    [done|done| |done| |by left].
  - by intros f ?%elem_of_nil.
  - by intros f ?%elem_of_nil.
Qed.

(** X9. When no new column has the name of a feature, a table returned
    by [transofrm] holds, for each feature, a new column as long as the
    caller's column, where a row with a category holds the WoE entry of that
    category ([NaN] without entry) and a row with a missing cell holds
    [NaN]. *)
Theorem transofrm_encodes checked self X X' feat :
  transofrm checked self X = inr X' → no_collision self → feat ∈ feats self →
  ∃ col d new_cells,
    X !! feat = Some col ∧ transform_dict_woe self !! feat = Some d ∧
    X' !! new_col_name self feat = Some (NumCol new_cells) ∧
    (∀ cells, col = CatCol cells →
       length new_cells = length cells ∧
       ∀ i c, cells !! i = Some (Some c) →
              new_cells !! i = Some (default NaN (d !! c))) ∧
    (∀ cells i, col = CatCol cells → cells !! i = Some None →
                new_cells !! i = Some NaN).
Proof.
  intros Htr Hnc Hfeat.
  destruct (transofrm_encoded _ _ _ _ _ Htr Hnc Hfeat) as (col & d & HX & Hd & HX').
  exists col, d, (encode_column d col). split_and!; try done.
  - intros cells ->. simpl. split; [by rewrite length_fmap|].
    intros i c Hc. by rewrite list_lookup_fmap, Hc.
  - intros cells i -> Hc. simpl. by rewrite list_lookup_fmap, Hc.
Qed.

(** X8. For an encoder fitted by [fit], when pandas ignores [na_action]
    or no fill value is configured, the drop is off or no feature is listed
    twice, and no new column has the name of a feature: [transofrm] returns
    exactly when the table has a column for every feature. *)
Theorem transofrm_returns_iff checked self0 Xt y self X :
  fit self0 Xt y = (self, None) →
  checked = false ∨ fillna self = None →
  dropping self = false ∨ NoDup (feats self) →
  no_collision self →
  (∃ X', transofrm checked self X = inr X')
  ↔ ∀ f, f ∈ feats self → is_Some (X !! f).
Proof.
  intros Hfit Hna Hdrop Hnc.
  destruct (fit_inr _ _ _ _ Hfit) as (Hfitted & Hfeats & _ & Hstored).
  split.
  - intros [X' Htr] f Hf.
    destruct (transofrm_encoded _ _ _ _ _ Htr Hnc Hf) as (col & _ & -> & _). done.
  - intros Hcols. unfold transofrm. rewrite Hfitted.
    apply transform_loop_returns; try done.
    intros f Hf. rewrite Hfeats in Hf.
    destruct (Hstored f Hf) as (? & ? & ? & _ & _ & -> & _). done.
Qed.

(** X11. Encoding the training table with the encoder just fitted on it
    gives, in the new column of a feature, a finite number in every row
    that is labelled 1 or 0 and has a category: the stored WoE of that
    category. *)
Theorem fit_transofrm_training checked self X y self' X' feat :
  fit self X y = (self', None) → no_collision self' →
  transofrm checked self' (as_frame X) = inr X' → feat ∈ feats self →
  ∃ x woe new_cells,
    X !! feat = Some x ∧ transform_dict_woe self' !! feat = Some woe ∧
    X' !! new_col_name self' feat = Some (NumCol new_cells) ∧
    length new_cells = length x ∧
    ∀ i c t, x !! i = Some (Some c) → y !! i = Some t → (t = 1 ∨ t = 0)%Z →
      ∃ r, woe !! c = Some (Fin r) ∧ new_cells !! i = Some (Fin r).
Proof.
  intros Hfit Hnc Htr Hfeat.
  destruct (fit_inr _ _ _ _ Hfit) as (_ & Hfeats & _ & Hstored).
  destruct (Hstored feat Hfeat) as (x & pe & pn & Hx & Hp & Hwoe & _).
  rewrite <-Hfeats in Hfeat.
  destruct (transofrm_encoded _ _ _ _ _ Htr Hnc Hfeat) as (col & d & HX & Hd & HX').
  unfold as_frame in HX. rewrite lookup_fmap, Hx in HX. injection HX as <-.
  remember (fit_feature (fillna self) pe pn).1 as woe eqn:Hdef.
  assert (d = woe) as -> by congruence.
  unfold encode_column in HX'.
  eexists x, woe, _.
  split_and!; [done | done | exact HX' | by rewrite length_fmap |].
  intros i c t Hc Ht Hlabel.
  assert (is_Some (woe !! c)) as [w Hw].
  { rewrite Hdef. apply fit_feature_woe_is_Some.
    destruct (calc_perc_keys _ _ _ _ c Hp) as [-> ->].
    destruct Hlabel as [-> | ->]; eauto. }
  assert (∃ r, w = Fin r) as [r ->].
  { rewrite Hdef in Hw.
    destruct (fit_feature_woe_cases _ _ _ _ _ _ _ Hp Hw)
      as [(? & ? & _ & _ & _ & _ & ->)|[_ ->]]; eauto. }
  exists r. split; [done|]. rewrite list_lookup_fmap, Hc.
  cbn [fmap option_fmap option_map mbind option_bind]. by rewrite Hw.
Qed.


(** ** From a description back to its band *)

Lemma add_description_fin r :
  add_description (Fin r) =
    (if Rlt_dec r 0 then "Too good to be true!"
     else if Rlt_dec r 0.02 then "Not useful for prediction"
     else if Rlt_dec r 0.1 then "Weak predictive power"
     else if Rlt_dec r 0.3 then "Medium predictive power"
     else if Rlt_dec r 0.5 then "Strong predictive power"
     else "Too good to be true!")%string.
Proof.
  unfold_bands.
  repeat (destruct (Rlt_dec r _)); try lra; by decide_cmp.
Qed.

(** X12. The description of a finite information value determines its
    band: each of the first four descriptions is given exactly on its band,
    and "Too good to be true!" exactly to the values below 0 or from 0.5
    on. *)
Theorem add_description_inverse r :
  (add_description (Fin r) = "Not useful for prediction"%string ↔ 0 <= r < 0.02)
  ∧ (add_description (Fin r) = "Weak predictive power"%string ↔ 0.02 <= r < 0.1)
  ∧ (add_description (Fin r) = "Medium predictive power"%string ↔ 0.1 <= r < 0.3)
  ∧ (add_description (Fin r) = "Strong predictive power"%string ↔ 0.3 <= r < 0.5)
  ∧ (add_description (Fin r) = "Too good to be true!"%string ↔ r < 0 ∨ 0.5 <= r).
Proof.
  rewrite add_description_fin.
  repeat (destruct (Rlt_dec r _)); split_and!; split;
    first [discriminate | lra | done | intros _; lra | intros ?; exfalso; lra].
Qed.

(** X13. After [fit], [information_values] returns one row per entry of
    [feats], in the order of [feats]; a row carries the description of its
    own value when descriptions are asked for and none otherwise, and the
    values do not depend on that choice. *)
Theorem information_values_table self X y self' add_desc :
  fit self X y = (self', None) →
  ∃ X_iv,
    information_values self' add_desc = inr X_iv ∧
    row_feat <$> X_iv = feats self ∧
    (∀ row, row ∈ X_iv →
       row_description row =
         if add_desc then Some (add_description (row_information_value row))
         else None) ∧
    ∃ X_iv', information_values self' (negb add_desc) = inr X_iv' ∧
             row_information_value <$> X_iv' = row_information_value <$> X_iv.
Proof.
  intros Hfit. destruct (fit_inr _ _ _ _ Hfit) as (_ & Hfeats & _).
  eexists. split; [by apply (fit_information_values _ _ _ _ _ Hfit)|].
  split_and!.
  - rewrite <-list_fmap_compose, <-Hfeats. apply list_fmap_id.
  - by intros row (feat & -> & _)%list_elem_of_fmap.
  - eexists. split; [by apply (fit_information_values _ _ _ _ _ Hfit)|].
    by rewrite <-!list_fmap_compose.
Qed.

(** ** The further properties on the sample tables *)

Lemma has_row_city_event : has_row 1 Sample.x_city Sample.y_city.
Proof. by exists 0%nat, "A"%string. Qed.

Lemma has_row_city_non_event : has_row 0 Sample.x_city Sample.y_city.
Proof. by exists 2%nat, "A"%string. Qed.

Lemma calc_perc_outcome_witness :
  length Sample.x_city = length Sample.y_city
  ∧ has_row 1 Sample.x_city Sample.y_city
  ∧ has_row 0 Sample.x_city Sample.y_city
  ∧ ∃ p_event p_non_event,
      calc_perc Sample.x_city Sample.y_city = inr (p_event, p_non_event).
Proof.
  assert (length Sample.x_city = length Sample.y_city) as Hlen by reflexivity.
  split; [exact Hlen|]. split; [exact has_row_city_event|].
  split; [exact has_row_city_non_event|].
  exact (proj2 (proj2 (proj2 (calc_perc_outcome _ _))) Hlen
           has_row_city_event has_row_city_non_event).
Defined.

Lemma calc_perc_formula_witness :
  calc_perc Sample.x_city Sample.y_city
    = inr (Sample.p_event_city, Sample.p_non_event_city)
  ∧ Sample.p_non_event_city !! "B"%string
    = Some (Fin (INR (occurrences (Some "B"%string, 0%Z)
                        (zip Sample.x_city Sample.y_city))
                 / INR (occurrences 0%Z Sample.y_city))).
Proof.
  split; [exact calc_perc_city|].
  apply (proj2 (calc_perc_formula _ _ _ _ calc_perc_city "B"%string)).
  split; [vm_compute; lia | reflexivity].
Defined.

Lemma fit_table_keys_witness :
  fit Sample.enc_city Sample.X_city Sample.y_city = (Sample.fitted_city, None)
  ∧ "city"%string ∈ feats Sample.enc_city
  ∧ ∃ woe, transform_dict_woe Sample.fitted_city !! "city"%string = Some woe
           ∧ is_Some (woe !! "B"%string) ∧ woe !! "C"%string = None.
Proof.
  assert (fit Sample.enc_city Sample.X_city Sample.y_city
          = (Sample.fitted_city, None)) as Hfit by (vm_compute; reflexivity).
  assert ("city"%string ∈ feats Sample.enc_city) as Hin by left.
  split; [exact Hfit|]. split; [exact Hin|].
  destruct (fit_table_keys _ _ _ _ _ Hfit Hin)
    as (x & woe & iv & Hx & Hwoe & _ & Hkeys & _).
  apply lookup_X_city in Hx as ->.
  exists woe. split; [exact Hwoe|]. split.
  - apply Hkeys. by exists 3%nat, 0%Z; split_and!; [..|right].
  - apply eq_None_not_Some. intros (i & t & Hc & _)%Hkeys.
    revert Hc. unfold Sample.x_city.
    destruct i as [|[|[|[|[|i]]]]]; simpl; rewrite ?lookup_nil; discriminate.
Defined.

Lemma fit_woe_sign_witness :
  fit Sample.enc_city Sample.X_city Sample.y_city = (Sample.fitted_city, None)
  ∧ "city"%string ∈ feats Sample.enc_city
  ∧ ∃ woe r, transform_dict_woe Sample.fitted_city !! "city"%string = Some woe
             ∧ woe !! "A"%string = Some (Fin r) ∧ r < 0.
Proof.
  assert (fit Sample.enc_city Sample.X_city Sample.y_city
          = (Sample.fitted_city, None)) as Hfit by (vm_compute; reflexivity).
  assert ("city"%string ∈ feats Sample.enc_city) as Hin by left.
  split; [exact Hfit|]. split; [exact Hin|].
  destruct (fit_woe_sign _ _ _ _ _ Hfit Hin)
    as (x & pe & pn & woe & Hx & Hp & Hwoe & Hsign).
  apply lookup_X_city in Hx as ->.
  rewrite calc_perc_city in Hp. injection Hp as <- <-.
  destruct (Hsign "A"%string (INR 2 / INR 2) (INR 1 / INR 3))
    as (r & Hr & _ & Hneg & _).
  { unfold Sample.p_event_city. rewrite div_scalar_lookup by lia. reflexivity. }
  { unfold Sample.p_non_event_city. rewrite div_scalar_lookup by lia.
    reflexivity. }
  exists woe, r. split; [exact Hwoe|]. split; [exact Hr|].
  apply Hneg. simpl. lra.
Defined.


Lemma fit_keeps_configuration_witness :
  fit Sample.enc_city Sample.X_two Sample.y_zeros
    = (Sample.enc_city, Some (KeyError (KInt 1)))
  ∧ is_fitted Sample.enc_city = false
  ∧ fit Sample.enc_city Sample.X_city Sample.y_city = (Sample.fitted_city, None)
  ∧ is_fitted Sample.fitted_city = true
  ∧ prefix Sample.fitted_city = "woe_"%string.
Proof.
  assert (fit Sample.enc_city Sample.X_two Sample.y_zeros
          = (Sample.enc_city, Some (KeyError (KInt 1)))) as Hbad
    by (vm_compute; reflexivity).
  assert (fit Sample.enc_city Sample.X_city Sample.y_city
          = (Sample.fitted_city, None)) as Hfit by (vm_compute; reflexivity).
  destruct (fit_keeps_configuration _ _ _ _ _ Hbad) as (_ & _ & _ & _ & _ & Hf & _).
  destruct (fit_keeps_configuration _ _ _ _ _ Hfit)
    as (_ & _ & _ & Hp & _ & Hf' & _).
  split; [exact Hbad|]. split; [exact Hf|]. split; [exact Hfit|].
  split; [exact Hf'|]. exact Hp.
Defined.

Lemma fit_again_witness :
  fit Sample.enc_city Sample.X_city Sample.y_city = (Sample.fitted_city, None)
  ∧ fit Sample.fitted_city Sample.X_city Sample.y_city
    = (Sample.fitted_city, None).
Proof.
  assert (fit Sample.enc_city Sample.X_city Sample.y_city
          = (Sample.fitted_city, None)) as Hfit by (vm_compute; reflexivity).
  split; [exact Hfit|]. exact (fit_again _ _ _ _ Hfit).
Defined.

Lemma no_collision_dropping : no_collision Sample2.fitted_dropping.
Proof.
  intros f f' Hf Hf'.
  assert (feats Sample2.fitted_dropping = ["city"%string]) as Hfeats
    by (vm_compute; reflexivity).
  rewrite Hfeats in Hf, Hf'.
  apply list_elem_of_singleton in Hf as ->, Hf' as ->.
  vm_compute. discriminate.
Qed.

Lemma fit_dropping :
  fit Sample2.enc_dropping Sample.X_city Sample.y_city
  = (Sample2.fitted_dropping, None).
Proof. vm_compute. reflexivity. Qed.

Lemma transofrm_dropping :
  transofrm false Sample2.fitted_dropping Sample.X_city_frame
  = inr (delete "city"%string Sample2.X_city_encoded).
Proof. vm_compute. reflexivity. Qed.

Lemma transofrm_other_columns_witness :
  transofrm false Sample2.fitted_dropping Sample.X_city_frame
    = inr (delete "city"%string Sample2.X_city_encoded)
  ∧ dropping Sample2.fitted_dropping = true
  ∧ delete "city"%string Sample2.X_city_encoded !! "city"%string = None.
Proof.
  split; [exact transofrm_dropping|]. split; [vm_compute; reflexivity|].
  rewrite (transofrm_other_columns _ _ _ _ "city"%string transofrm_dropping).
  - vm_compute. reflexivity.
  - intros f Hf.
    assert (feats Sample2.fitted_dropping = ["city"%string]) as Hfeats
      by (vm_compute; reflexivity).
    rewrite Hfeats in Hf. apply list_elem_of_singleton in Hf as ->.
    vm_compute. discriminate.
Defined.

Lemma transofrm_encodes_witness :
  transofrm false Sample2.fitted_dropping Sample.X_city_frame
    = inr (delete "city"%string Sample2.X_city_encoded)
  ∧ no_collision Sample2.fitted_dropping
  ∧ "city"%string ∈ feats Sample2.fitted_dropping
  ∧ ∃ d new_cells,
      transform_dict_woe Sample2.fitted_dropping !! "city"%string = Some d
      ∧ delete "city"%string Sample2.X_city_encoded !! "woe_city"%string
        = Some (NumCol new_cells)
      ∧ new_cells !! 3%nat = Some (default NaN (d !! "B"%string)).
Proof.
  assert ("city"%string ∈ feats Sample2.fitted_dropping) as Hin.
  { apply (bool_decide_unpack _). vm_compute. exact I. }
  split; [exact transofrm_dropping|]. split; [exact no_collision_dropping|].
  split; [exact Hin|].
  destruct (transofrm_encodes _ _ _ _ _ transofrm_dropping
              no_collision_dropping Hin)
    as (col & d & new_cells & Hcol & Hd & Hnew & Hcat & _).
  assert (col = CatCol Sample.x_city) as Hx.
  { unfold Sample.X_city_frame in Hcol. rewrite lookup_singleton_eq in Hcol.
    congruence. }
  exists d, new_cells. split; [exact Hd|]. split; [exact Hnew|].
  apply (proj2 (Hcat _ Hx) 3%nat "B"%string). reflexivity.
Defined.

Lemma transofrm_returns_iff_witness :
  fit Sample2.enc_dropping Sample.X_city Sample.y_city
    = (Sample2.fitted_dropping, None)
  ∧ NoDup (feats Sample2.fitted_dropping)
  ∧ no_collision Sample2.fitted_dropping
  ∧ (∃ X', transofrm false Sample2.fitted_dropping Sample.X_city_frame = inr X')
  ∧ ¬ (∃ X', transofrm false Sample2.fitted_dropping ∅ = inr X').
Proof.
  assert (NoDup (feats Sample2.fitted_dropping)) as Hnd.
  { apply (bool_decide_unpack _). vm_compute. exact I. }
  split; [exact fit_dropping|]. split; [exact Hnd|].
  split; [exact no_collision_dropping|].
  assert (∀ X : gmap string column,
            (∃ X', transofrm false Sample2.fitted_dropping X = inr X')
            ↔ ∀ f, f ∈ feats Sample2.fitted_dropping → is_Some (X !! f)) as Hiff.
  { intros X.
    exact (transofrm_returns_iff false _ _ _ _ X fit_dropping
             (or_introl eq_refl) (or_intror Hnd) no_collision_dropping). }
  split.
  - apply Hiff. intros f Hf.
    assert (feats Sample2.fitted_dropping = ["city"%string]) as Hfeats
      by (vm_compute; reflexivity).
    rewrite Hfeats in Hf. apply list_elem_of_singleton in Hf as ->.
    eexists. vm_compute. reflexivity.
  - intros Hret.
    destruct (proj1 (Hiff ∅) Hret "city"%string) as [col Hcol].
    + apply (bool_decide_unpack _). vm_compute. exact I.
    + rewrite lookup_empty in Hcol. discriminate Hcol.
Defined.

Lemma transofrm_training_dropping :
  transofrm false Sample2.fitted_dropping (as_frame Sample.X_city)
  = inr (delete "city"%string Sample2.X_city_encoded).
Proof. vm_compute. reflexivity. Qed.

Lemma fit_transofrm_training_witness :
  fit Sample2.enc_dropping Sample.X_city Sample.y_city
    = (Sample2.fitted_dropping, None)
  ∧ no_collision Sample2.fitted_dropping
  ∧ transofrm false Sample2.fitted_dropping (as_frame Sample.X_city)
    = inr (delete "city"%string Sample2.X_city_encoded)
  ∧ "city"%string ∈ feats Sample2.enc_dropping
  ∧ ∃ new_cells r,
      delete "city"%string Sample2.X_city_encoded !! "woe_city"%string
        = Some (NumCol new_cells)
      ∧ new_cells !! 4%nat = Some (Fin r).
Proof.
  assert ("city"%string ∈ feats Sample2.enc_dropping) as Hin by left.
  split; [exact fit_dropping|]. split; [exact no_collision_dropping|].
  split; [exact transofrm_training_dropping|]. split; [exact Hin|].
  destruct (fit_transofrm_training _ _ _ _ _ _ _ fit_dropping
              no_collision_dropping transofrm_training_dropping Hin)
    as (x & woe & new_cells & Hx & _ & Hnew & _ & Hrows).
  apply lookup_X_city in Hx as ->.
  destruct (Hrows 4%nat "B"%string 0%Z) as (r & _ & Hr);
    [reflexivity | reflexivity | by right|].
  exists new_cells, r. split; [exact Hnew | exact Hr].
Defined.

Lemma information_values_table_witness :
  fit Sample.enc_city Sample.X_city Sample.y_city = (Sample.fitted_city, None)
  ∧ ∃ X_iv, information_values Sample.fitted_city false = inr X_iv
            ∧ row_feat <$> X_iv = ["city"%string]
            ∧ ∀ row, row ∈ X_iv → row_description row = None.
Proof.
  assert (fit Sample.enc_city Sample.X_city Sample.y_city
          = (Sample.fitted_city, None)) as Hfit by (vm_compute; reflexivity).
  split; [exact Hfit|].
  destruct (information_values_table _ _ _ _ false Hfit)
    as (X_iv & Hval & Hfeats & Hdesc & _).
  exists X_iv. split; [exact Hval|]. split; [exact Hfeats|]. exact Hdesc.
Defined.

(** ** bin_continuous *)

Section bin_continuous_facts.
Import BinContinuous.
Context {sk : sklearn}.
Implicit Types (self : binner sk) (X : gmap string column).

Lemma bin_initialize_loop_config cs self self' r :
  initialize_loop cs self = (self', r) →
  cols self' = cols self ∧ drop_original self' = drop_original self ∧
  suffix self' = suffix self ∧ bin_params self' = bin_params self.
Proof.
  revert self. induction cs as [|col rest IH]; intros self; cbn [initialize_loop].
  - by intros [= <- _].
  - destruct (bin_params self) as [p|] eqn:Hp; [|by intros [= <- _]].
    destruct (set_params sk p (KBinsDiscretizer sk)) as [est [e|]];
      [by intros [= <- _]|].
    intros Hrest. apply IH in Hrest as (-> & -> & -> & ->). done.
Qed.

(** After [__initialize] every column has a new estimator with the
    parameters set. *)
Lemma bin_initialize_loop_stored cs self self' :
  initialize_loop cs self = (self', None) →
  ∀ col,
    (col ∈ cs → ∃ p est, bin_params self = Some p
                         ∧ set_params sk p (KBinsDiscretizer sk) = (est, None)
                         ∧ transformers self' !! col = Some est)
    ∧ (col ∉ cs → transformers self' !! col = transformers self !! col).
Proof.
  revert self. induction cs as [|c rest IH]; intros self; cbn [initialize_loop].
  - intros [= <-] col. split; [by intros ?%elem_of_nil | done].
  - destruct (bin_params self) as [p|] eqn:Hp; [|done].
    destruct (set_params sk p (KBinsDiscretizer sk)) as [est [e|]] eqn:Hs; [done|].
    intros Hrest col. destruct (IH _ Hrest col) as [Hin Hout].
    cbn [set_transformer bin_params transformers] in Hin, Hout. split.
    + intros Hcol. destruct (decide (col ∈ rest)) as [Hr|Hr].
      * destruct (Hin Hr) as (p' & est' & Hp' & ? & ?).
        rewrite Hp in Hp'. injection Hp' as <-. by exists p, est'.
      * apply elem_of_cons in Hcol as [->|]; [|done].
        rewrite (Hout Hr), lookup_insert_eq. by exists p, est.
    + intros [Hne Hr]%not_elem_of_cons. rewrite (Hout Hr).
      by rewrite lookup_insert_ne.
Qed.

Lemma bin_fit_loop_stored cs X self self' :
  NoDup cs →
  fit_loop cs X self = (self', None) →
  cols self' = cols self ∧ drop_original self' = drop_original self ∧
  suffix self' = suffix self ∧ bin_params self' = bin_params self ∧
  ∀ col,
    (col ∈ cs → ∃ est c est', transformers self !! col = Some est
                             ∧ X !! col = Some c
                             ∧ est_fit sk est c = (est', None)
                             ∧ transformers self' !! col = Some est')
    ∧ (col ∉ cs → transformers self' !! col = transformers self !! col).
Proof.
  intros Hnd. revert self.
  induction cs as [|c rest IH]; intros self; cbn [fit_loop].
  - intros [= <-]. split_and!; try done.
    intros col. split; [by intros ?%elem_of_nil | done].
  - apply NoDup_cons in Hnd as [Hc Hnd].
    destruct (transformers self !! c) as [est|] eqn:He; [|done].
    destruct (X !! c) as [cells|] eqn:Hx; [|done].
    destruct (est_fit sk est cells) as [est' [e|]] eqn:Hf; [done|].
    intros Hrest. destruct (IH Hnd _ Hrest) as (-> & -> & -> & -> & Hall).
    split_and!; try done. intros col. destruct (Hall col) as [Hin Hout].
    cbn [set_transformer transformers] in Hin, Hout. split.
    + intros [->|Hr]%elem_of_cons.
      * rewrite (Hout Hc), lookup_insert_eq. by exists est, cells, est'.
      * destruct (Hin Hr) as (e0 & c0 & e1 & H0 & ? & ? & ?).
        rewrite lookup_insert_ne in H0 by (intros ->; done).
        by exists e0, c0, e1.
    + intros [Hne Hr]%not_elem_of_cons. rewrite (Hout Hr).
      by rewrite lookup_insert_ne.
Qed.

(** X14. A binner built without [params], which is the default, cannot be
    fitted: with at least one column, [fit] raises [TypeError] in
    [__initialize], whatever the table and whatever sklearn does, and
    leaves the binner as it was. *)
Theorem bin_fit_without_params self X :
  bin_params self = None → cols self ≠ [] →
  fit self X = (self, Some TypeError).
Proof.
  intros Hp Hc. unfold fit, initialize.
  destruct (cols self) as [|col rest]; [done|].
  cbn [initialize_loop]. by rewrite Hp.
Qed.

(** X15. When [fit] returns and no column is listed twice, the transformer
    of each column is a new estimator, with the parameters set, fitted on
    that column of the table: what the transformers were before plays no
    part.  The settings and the transformers under other names are
    unchanged. *)
Theorem bin_fit_transformers self X self' :
  fit self X = (self', None) → NoDup (cols self) →
  cols self' = cols self ∧ drop_original self' = drop_original self ∧
  suffix self' = suffix self ∧ bin_params self' = bin_params self ∧
  (∀ col, col ∈ cols self →
     ∃ p c est est',
       bin_params self = Some p ∧ X !! col = Some c ∧
       set_params sk p (KBinsDiscretizer sk) = (est, None) ∧
       est_fit sk est c = (est', None) ∧
       transformers self' !! col = Some est') ∧
  (∀ col, col ∉ cols self →
     transformers self' !! col = transformers self !! col).
Proof.
  unfold fit, initialize.
  destruct (initialize_loop (cols self) self) as [s [e|]] eqn:Hinit; [done|].
  destruct (bin_initialize_loop_config _ _ _ _ Hinit) as (Hcols & Hd & Hs & Hp).
  pose proof (bin_initialize_loop_stored _ _ _ Hinit) as Hest.
  rewrite Hcols. intros Hfit Hnd.
  destruct (bin_fit_loop_stored _ _ _ _ Hnd Hfit) as (-> & -> & -> & -> & Hfitted).
  split_and!; try done.
  - intros col Hcol. destruct (proj1 (Hest col) Hcol) as (p & est & ? & ? & He).
    destruct (proj1 (Hfitted col) Hcol) as (est0 & c & est' & He0 & ? & ? & ?).
    rewrite He in He0. injection He0 as <-. by exists p, c, est, est'.
  - intros col Hcol. rewrite (proj2 (Hfitted col) Hcol). by apply Hest.
Qed.
End bin_continuous_facts.

(** ** The label encoders of Featurizer *)

Section label_encoder_facts.
Import Featurizer.


Section unique_facts.
Context `{Countable K}.
Implicit Types (l seen : list K) (v : K).

Lemma elem_of_unique_from seen l v :
  v ∈ unique_from seen l ↔ v ∈ l ∧ v ∉ seen.
Proof.
  revert seen. induction l as [|a l IH]; intros seen; simpl.
  - split; [by intros ?%elem_of_nil | by intros [?%elem_of_nil _]].
  - destruct (decide (a ∈ seen)) as [Ha|Ha].
    + rewrite IH, elem_of_cons. split; [tauto|].
      intros [[->|?] ?]; [done|tauto].
    + rewrite !elem_of_cons, IH, not_elem_of_cons.
      destruct (decide (v = a)) as [->|]; [tauto|]. tauto.
Qed.

Lemma NoDup_unique_from seen l : NoDup (unique_from seen l).
Proof.
  revert seen. induction l as [|a l IH]; intros seen; simpl; [constructor|].
  destruct (decide (a ∈ seen)); [apply IH|].
  apply NoDup_cons. split; [|apply IH].
  rewrite elem_of_unique_from, not_elem_of_cons. tauto.
Qed.

Lemma elem_of_unique l v : v ∈ unique l ↔ v ∈ l.
Proof.
  unfold unique. rewrite elem_of_unique_from. split; [tauto|].
  intros ?. split; [done | apply not_elem_of_nil].
Qed.

Lemma NoDup_unique l : NoDup (unique l).
Proof. apply NoDup_unique_from. Qed.

Lemma enumerate_dict_snoc l v :
  enumerate_dict (l ++ [v]) = <[v := length l]> (enumerate_dict l).
Proof.
  unfold enumerate_dict. rewrite imap_app, foldl_app. simpl.
  by rewrite Nat.add_0_r.
Qed.

Lemma enumerate_dict_lookup l v i :
  NoDup l → enumerate_dict l !! v = Some i ↔ l !! i = Some v.
Proof.
  induction l as [|a l IH] using rev_ind; intros Hnd.
  - unfold enumerate_dict. simpl. rewrite lookup_empty. by split.
  - apply NoDup_app in Hnd as (Hnd & Hdisj & _).
    rewrite enumerate_dict_snoc. destruct (decide (v = a)) as [->|Hne].
    + rewrite lookup_insert_eq. split.
      * intros [= <-]. by rewrite lookup_app_r, Nat.sub_diag.
      * intros Hi. f_equal. destruct (decide (i < length l)%nat) as [Hlt|Hge].
        -- rewrite lookup_app_l in Hi by done.
           apply list_elem_of_lookup_2 in Hi. destruct (Hdisj a Hi). left.
        -- apply lookup_lt_Some in Hi. rewrite length_app in Hi. simpl in Hi. lia.
    + rewrite lookup_insert_ne by done. rewrite IH by done. split.
      * intros Hi. rewrite lookup_app_l; [done|]. by eapply lookup_lt_Some.
      * intros Hi. destruct (decide (i < length l)%nat) as [Hlt|Hge].
        -- by rewrite lookup_app_l in Hi.
        -- rewrite lookup_app_r in Hi by lia.
           destruct (i - length l)%nat; simpl in Hi; [congruence|].
           by rewrite lookup_nil in Hi.
Qed.
End unique_facts.


Section enumerate_facts.
Context `{Countable K}.
Implicit Types (l : list K) (v : K).

Lemma enumerate_dict_size l : NoDup l → size (enumerate_dict l) = length l.
Proof.
  induction l as [|a l IH] using rev_ind; intros Hnd; [done|].
  apply NoDup_app in Hnd as (Hnd & Hdisj & _).
  rewrite enumerate_dict_snoc, map_size_insert_None.
  - rewrite IH, length_app by done. simpl. lia.
  - apply eq_None_not_Some. intros [i Hi].
    apply enumerate_dict_lookup in Hi; [|done].
    apply list_elem_of_lookup_2 in Hi. destruct (Hdisj a Hi). left.
Qed.
End enumerate_facts.

(** The dict that [__fit_label_encoder] builds for a column. *)
Lemma label_dict_lookup (series : list (option string)) v i :
  enumerate_dict (unique series) !! v = Some i ↔ unique series !! i = Some v.
Proof. apply enumerate_dict_lookup, NoDup_unique. Qed.

Lemma fit_label_encoders_loop_config cs X self self' r :
  fit_label_encoders_loop cs X self = (self', r) →
  label_encoder_columns self' = label_encoder_columns self.
Proof.
  revert self. induction cs as [|c rest IH]; intros self; simpl.
  - by intros [= <- _].
  - destruct (X !! c); [|by intros [= <- _]]. intros Hrest%IH. done.
Qed.

Lemma fit_label_encoders_loop_stored cs (X : gmap string (list (option string)))
    self self' encoders :
  label_encoders self = Some encoders →
  fit_label_encoders_loop cs X self = (self', None) →
  label_encoders self' = Some (list_to_set cs ∪ encoders)
  ∧ ∀ col,
      (col ∈ cs →
         ∃ series, X !! col = Some series ∧
           label_encoding_dict self' !! col
             = Some (enumerate_dict (unique series)))
      ∧ (col ∉ cs →
           label_encoding_dict self' !! col = label_encoding_dict self !! col).
Proof.
  revert self encoders. induction cs as [|c rest IH]; intros self encoders Henc;
    cbn [fit_label_encoders_loop].
  - intros [= <-]. split.
    + rewrite Henc. f_equal. by rewrite list_to_set_nil, (left_id_L ∅ (∪)).
    + intros col. split; [by intros ?%elem_of_nil | done].
  - destruct (X !! c) as [series|] eqn:Hx; [|done]. intros Hrest.
    eapply IH in Hrest as [Hencs Hall].
    2:{ cbn [add_label_encoder fit_label_encoder label_encoders].
        rewrite Henc. reflexivity. }
    split.
    + rewrite Hencs. f_equal. cbn [default from_option id].
      rewrite list_to_set_cons.
      rewrite (comm_L (∪) {[c]} (list_to_set rest)). by rewrite <-(assoc_L (∪)).
    + intros col. destruct (Hall col) as [Hin Hout].
      cbn [add_label_encoder fit_label_encoder label_encoding_dict] in Hout.
      split.
      * intros Hcol. destruct (decide (col ∈ rest)) as [Hr|Hr]; [by apply Hin|].
        apply elem_of_cons in Hcol as [->|]; [|done].
        rewrite (Hout Hr), lookup_insert_eq. by exists series.
      * intros [Hne Hr]%not_elem_of_cons. rewrite (Hout Hr).
        by rewrite lookup_insert_ne.
Qed.

Lemma fit_label_encoders_inr (X : gmap string (list (option string))) self self' :
  fit_label_encoders self X = (self', None) →
  label_encoder_columns self' = label_encoder_columns self
  ∧ label_encoders self' = Some (list_to_set (label_encoder_columns self))
  ∧ ∀ col, col ∈ label_encoder_columns self →
      ∃ series, X !! col = Some series ∧
        label_encoding_dict self' !! col = Some (enumerate_dict (unique series)).
Proof.
  unfold fit_label_encoders. intros Hloop.
  pose proof (fit_label_encoders_loop_config _ _ _ _ _ Hloop) as Hcols.
  eapply fit_label_encoders_loop_stored in Hloop as [Henc Hall]; [|done].
  split_and!; [done | |].
  - rewrite Henc. f_equal. by rewrite (right_id_L ∅ (∪)).
  - intros col Hcol. by apply Hall.
Qed.

(** X16. After the label encoders are fitted, the dict of a column has a
    code exactly for the values of the training column, a missing cell
    counting as a value; different values have different codes; the codes
    are the numbers 0 to k - 1, k being the number of entries; and the
    value in the first row has the code 0. *)
Theorem label_codes self X self' col :
  fit_label_encoders self X = (self', None) →
  col ∈ label_encoder_columns self →
  ∃ series d,
    X !! col = Some series ∧ label_encoding_dict self' !! col = Some d ∧
    (∀ v, is_Some (d !! v) ↔ v ∈ series) ∧
    (∀ v1 v2 i, d !! v1 = Some i → d !! v2 = Some i → v1 = v2) ∧
    (∀ v i, d !! v = Some i → (i < size d)%nat) ∧
    (∀ i, (i < size d)%nat → ∃ v, d !! v = Some i) ∧
    (∀ v, head series = Some v → d !! v = Some 0%nat).
Proof.
  intros (_ & _ & Hall)%fit_label_encoders_inr Hcol.
  destruct (Hall col Hcol) as (series & Hx & Hd).
  exists series, (enumerate_dict (unique series)).
  pose proof (NoDup_unique series) as Hnd.
  split_and!; try done.
  - intros v. rewrite <-elem_of_unique. split.
    + intros [i Hi]. apply label_dict_lookup in Hi. by eapply list_elem_of_lookup_2.
    + intros (i & Hi)%list_elem_of_lookup_1. exists i. by apply label_dict_lookup.
  - intros v1 v2 i H1%label_dict_lookup H2%label_dict_lookup. congruence.
  - intros v i Hi%label_dict_lookup. rewrite enumerate_dict_size by done.
    by eapply lookup_lt_Some.
  - intros i Hi. rewrite enumerate_dict_size in Hi by done.
    destruct (lookup_lt_is_Some_2 _ _ Hi) as [v Hv]. exists v.
    by apply label_dict_lookup.
  - intros v Hv. apply label_dict_lookup. destruct series as [|a l]; [done|].
    injection Hv as ->. unfold unique. cbn [unique_from].
    by rewrite decide_False by apply not_elem_of_nil.
Qed.


Lemma transform_label_encoder_fitted self cs col series :
  encoders_fitted self cs → col ∈ cs →
  ∃ d, label_encoding_dict self !! col = Some d ∧
       transform_label_encoder self col series = inr (label_encoder d series).
Proof.
  intros (encoders & Henc & Hall) Hcol. destruct (Hall col Hcol) as [Hin [d Hd]].
  exists d. split; [done|]. unfold transform_label_encoder.
  by rewrite Henc, decide_True, Hd.
Qed.

Lemma transform_label_encoders_loop_outcome self cs (X : gmap string column) :
  encoders_fitted self cs → NoDup cs →
  match transform_label_encoders_loop self cs X with
  | inr X' =>
      ∀ name,
        (name ∈ cs →
           ∃ d c, label_encoding_dict self !! name = Some d ∧ X !! name = Some c
                  ∧ X' !! name = Some (NumCol (label_encoder d c)))
        ∧ (name ∉ cs → X' !! name = X !! name)
  | inl e => ∃ col, col ∈ cs ∧ X !! col = None ∧ e = KeyError col
  end.
Proof.
  intros Hfit Hnd. revert X.
  induction cs as [|c rest IH]; intros X; cbn [transform_label_encoders_loop].
  - intros name. split; [by intros ?%elem_of_nil | done].
  - apply NoDup_cons in Hnd as [Hc Hnd].
    destruct (X !! c) as [series|] eqn:Hx.
    2:{ exists c. split_and!; [left | done | done]. }
    destruct (transform_label_encoder_fitted self (c :: rest) c series Hfit)
      as (d & Hd & ->); [left|].
    assert (encoders_fitted self rest) as Hfit'.
    { destruct Hfit as (encoders & ? & Hall). exists encoders. split; [done|].
      intros col Hcol. apply Hall. by right. }
    specialize (IH Hfit' Hnd (<[c:=NumCol (label_encoder d series)]> X)).
    destruct (transform_label_encoders_loop self rest _) as [e|X'].
    + destruct IH as (col & Hcol & Hnone & ->). exists col.
      split_and!; [by right | | done].
      rewrite lookup_insert_ne in Hnone; [done|]. by intros ->.
    + intros name. destruct (IH name) as [Hin Hout]. split.
      * intros [->|Hr]%elem_of_cons.
        -- rewrite (Hout Hc), lookup_insert_eq. by exists d, series.
        -- destruct (Hin Hr) as (d' & c' & ? & Hc' & ?).
           rewrite lookup_insert_ne in Hc' by (by intros ->).
           by exists d', c'.
      * intros [Hne Hr]%not_elem_of_cons. rewrite (Hout Hr).
        by rewrite lookup_insert_ne.
Qed.

Lemma label_code_seen (series : list (option string)) cell :
  (cell ∈ series →
     ∃ code, enumerate_dict (unique series) !! cell = Some code
             ∧ label_code (enumerate_dict (unique series)) cell = Fin (INR code))
  ∧ (cell ∉ series → label_code (enumerate_dict (unique series)) cell = Fin (-1)).
Proof.
  unfold label_code. split.
  - intros (i & Hi)%elem_of_unique%list_elem_of_lookup_1.
    apply label_dict_lookup in Hi. exists i. by rewrite Hi.
  - intros Hnot. destruct (_ !! cell) as [i|] eqn:Hi; [|done].
    apply label_dict_lookup, list_elem_of_lookup_2 in Hi.
    rewrite elem_of_unique in Hi. destruct (Hnot Hi).
Qed.

(** X17. With the label encoders fitted and no column listed twice,
    encoding a table either raises [KeyError] for a configured column that
    the table lacks, or returns the table with every other column
    unchanged and every configured column rewritten: a cell whose value
    occurred in the training column holds its code in the dict, and any
    other cell holds -1. *)
Theorem label_transform self X self' (X2 : gmap string column) :
  fit_label_encoders self X = (self', None) →
  NoDup (label_encoder_columns self) →
  match transform_label_encoders self' X2 with
  | inl e =>
      ∃ col, col ∈ label_encoder_columns self ∧ X2 !! col = None
             ∧ e = KeyError col
  | inr X2' =>
      (∀ name, name ∉ label_encoder_columns self → X2' !! name = X2 !! name)
      ∧ ∀ col, col ∈ label_encoder_columns self →
          ∃ series d c codes,
            X !! col = Some series ∧
            label_encoding_dict self' !! col = Some d ∧
            X2 !! col = Some c ∧ X2' !! col = Some (NumCol codes) ∧
            ∀ cells, c = CatCol cells →
              length codes = length cells ∧
              ∀ i cell, cells !! i = Some cell →
                (cell ∈ series →
                   ∃ code, d !! cell = Some code
                           ∧ codes !! i = Some (Fin (INR code)))
                ∧ (cell ∉ series → codes !! i = Some (Fin (-1)))
  end.
Proof.
  intros Hfit Hnd.
  destruct (fit_label_encoders_inr _ _ _ Hfit) as (Hcols & Henc & Hall).
  assert (encoders_fitted self' (label_encoder_columns self)) as Hfitted.
  { eexists. split; [exact Henc|]. intros col Hcol. split.
    - by apply elem_of_list_to_set.
    - destruct (Hall col Hcol) as (? & _ & ->). done. }
  unfold transform_label_encoders. rewrite Hcols.
  pose proof (transform_label_encoders_loop_outcome _ _ X2 Hfitted Hnd) as Hout.
  destruct (transform_label_encoders_loop self' _ X2) as [e|X2']; [done|].
  split; [intros name Hname; by apply Hout|].
  intros col Hcol. destruct (proj1 (Hout col) Hcol) as (d & c & Hd & Hc & Hnew).
  destruct (Hall col Hcol) as (series & Hx & Hd').
  rewrite Hd in Hd'. injection Hd' as ->.
  exists series, (enumerate_dict (unique series)), c,
    (label_encoder (enumerate_dict (unique series)) c).
  split_and!; try done. intros cells ->. cbn [label_encoder].
  split; [by rewrite length_fmap|]. intros i cell Hcell.
  rewrite list_lookup_fmap, Hcell. cbn [fmap option_fmap option_map].
  destruct (label_code_seen series cell) as [Hseen Hunseen]. split.
  - intros Hin. destruct (Hseen Hin) as (code & Hcode & ->). by exists code.
  - intros Hnot. by rewrite Hunseen.
Qed.

End label_encoder_facts.

(** ** The properties of the other classes on samples *)

Lemma bin_fit_without_params_witness :
  BinContinuous.bin_params BinSample.binner_default = None
  ∧ BinContinuous.cols BinSample.binner_default ≠ []
  ∧ BinContinuous.fit BinSample.binner_default BinSample.X_age
    = (BinSample.binner_default, Some BinContinuous.TypeError).
Proof.
  assert (BinContinuous.cols BinSample.binner_default ≠ []) as Hc
    by (simpl; discriminate).
  split; [reflexivity|]. split; [exact Hc|].
  exact (bin_fit_without_params BinSample.binner_default BinSample.X_age
           eq_refl Hc).
Defined.

Lemma bin_fit_transformers_witness :
  BinContinuous.fit BinSample.binner_set BinSample.X_age
    = (BinSample.binner_fitted, None)
  ∧ NoDup (BinContinuous.cols BinSample.binner_set)
  ∧ BinContinuous.transformers BinSample.binner_fitted !! "age"%string
    = Some [NumCol [Fin 1; Fin 2]].
Proof.
  assert (BinContinuous.fit BinSample.binner_set BinSample.X_age
          = (BinSample.binner_fitted, None)) as Hfit
    by (vm_compute; reflexivity).
  assert (NoDup (BinContinuous.cols BinSample.binner_set)) as Hnd.
  { apply (bool_decide_unpack _). vm_compute. exact I. }
  split; [exact Hfit|]. split; [exact Hnd|].
  destruct (bin_fit_transformers _ _ _ Hfit Hnd) as (_ & _ & _ & _ & Hcols & _).
  destruct (Hcols "age"%string)
    as (p & c & est & est' & _ & Hc & Hset & Hest & Hres); [left|].
  refine (eq_trans Hres _).
  unfold BinSample.X_age in Hc. rewrite lookup_singleton_eq in Hc.
  injection Hc as <-.
  cbv [BinSample.toy BinContinuous.set_params BinContinuous.est_fit
       BinContinuous.KBinsDiscretizer] in Hset, Hest.
  injection Hset as <-. injection Hest as <-. reflexivity.
Defined.

Lemma fit_label_encoders_city :
  Featurizer.fit_label_encoders LabelSample.featurizer_city Sample.X_city
  = (LabelSample.fitted_featurizer, None).
Proof. vm_compute. reflexivity. Qed.

Lemma label_codes_witness :
  Featurizer.fit_label_encoders LabelSample.featurizer_city Sample.X_city
    = (LabelSample.fitted_featurizer, None)
  ∧ "city"%string
    ∈ Featurizer.label_encoder_columns LabelSample.featurizer_city
  ∧ ∃ d, Featurizer.label_encoding_dict LabelSample.fitted_featurizer
           !! "city"%string = Some d
         ∧ d !! Some "A"%string = Some 0%nat
         ∧ is_Some (d !! Some "B"%string) ∧ d !! Some "C"%string = None.
Proof.
  assert ("city"%string
          ∈ Featurizer.label_encoder_columns LabelSample.featurizer_city)
    as Hin by left.
  split; [exact fit_label_encoders_city|]. split; [exact Hin|].
  destruct (label_codes _ _ _ _ fit_label_encoders_city Hin)
    as (series & d & Hx & Hd & Hkeys & _ & _ & _ & Hhead).
  apply lookup_X_city in Hx as ->.
  exists d. split; [exact Hd|]. split; [by apply Hhead|]. split.
  - apply Hkeys. apply (bool_decide_unpack _). vm_compute. exact I.
  - apply eq_None_not_Some. intros Hc%Hkeys. revert Hc.
    apply (bool_decide_unpack _). vm_compute. exact I.
Defined.

Lemma label_transform_witness :
  Featurizer.fit_label_encoders LabelSample.featurizer_city Sample.X_city
    = (LabelSample.fitted_featurizer, None)
  ∧ NoDup (Featurizer.label_encoder_columns LabelSample.featurizer_city)
  ∧ ∃ X' codes,
      Featurizer.transform_label_encoders LabelSample.fitted_featurizer
        Sample.X_new = inr X'
      ∧ X' !! "city"%string = Some (NumCol codes)
      ∧ codes !! 1%nat = Some (Fin (-1)).
Proof.
  assert (NoDup (Featurizer.label_encoder_columns LabelSample.featurizer_city))
    as Hnd.
  { apply (bool_decide_unpack _). vm_compute. exact I. }
  split; [exact fit_label_encoders_city|]. split; [exact Hnd|].
  pose proof (label_transform _ _ _ Sample.X_new fit_label_encoders_city Hnd)
    as Hout.
  destruct (Featurizer.transform_label_encoders LabelSample.fitted_featurizer
              Sample.X_new) as [e|X'] eqn:Htr.
  { exfalso. vm_compute in Htr. discriminate Htr. }
  destruct Hout as [_ Hcols].
  destruct (Hcols "city"%string) as (series & d & c & codes & Hx & _ & Hc & Hnew & Hcells);
    [left|].
  apply lookup_X_city in Hx as ->.
  unfold Sample.X_new in Hc. rewrite lookup_singleton_eq in Hc.
  injection Hc as <-.
  exists X', codes. split; [reflexivity|]. split; [exact Hnew|].
  apply (proj2 (Hcells _ eq_refl) 1%nat (Some "C"%string) eq_refl).
  apply (bool_decide_unpack _). vm_compute. exact I.
Defined.
